(** * Ownership discipline of example.cc: owner_ref, shared_ref, const_ref
      and owning_stack

    The C++ program is embedded shallowly.  Every member function becomes a
    computation of the monad [M], which threads the free store through the
    call and records how the call can end: normally, on a failed [assert]
    (only when <cassert> is active), in undefined behaviour, or not at all
    because the compiler rejects the call. *)

From stdpp Require Import gmap strings list fin_maps.
From Stdlib Require Import DecimalString.

(** ** Builds and outcomes *)

(** <cassert>: [assert] checks its argument unless NDEBUG is defined. *)
Inductive build := Debug | Release.

Inductive outcome (A : Type) : Type :=
| Ok (a : A)      (* the call returns *)
| AssertFail      (* an assert of the program failed: abort() *)
| Undefined       (* the C++ standard gives the call no meaning *)
| IllFormed.      (* the call is rejected at compile time *)

Arguments Ok {A} a.
Arguments AssertFail {A}.
Arguments Undefined {A}.
Arguments IllFormed {A}.

(** ** The free store *)

Definition loc := positive.
Abbreviation ptr := (option loc).
Abbreviation nullptr := (@None loc).

(** [heap] holds the live objects created by [new]; [deleted] logs every
    run of a payload destructor, most recent first. *)
Record state (T : Type) := State {
  heap : gmap loc T;
  deleted : list loc
}.
Arguments State {T} heap deleted.
Arguments heap {T} s.
Arguments deleted {T} s.

Definition M (T A : Type) : Type := build → state T → outcome (A * state T).

#[global] Instance M_ret {T} : MRet (M T) := λ A a _ s, Ok (a, s).

#[global] Instance M_bind {T} : MBind (M T) :=
  λ A B (k : A → M T B) (m : M T A) b s,
    match m b s with
    | Ok (a, s') => k a b s'
    | AssertFail => AssertFail
    | Undefined => Undefined
    | IllFormed => IllFormed
    end.

Section store.
Context {T : Type}.

Definition assert (c : bool) : M T unit :=
  λ b s,
    match b with
    | Debug => if c then Ok (tt, s) else AssertFail
    | Release => Ok (tt, s)
    end.

Definition undefined {A} : M T A := λ _ _, Undefined.
Definition ill_formed {A} : M T A := λ _ _, IllFormed.

(** An address that is neither live nor was ever handed out before. *)
Definition fresh_loc (s : state T) : loc :=
  fresh (dom (heap s) ∪ list_to_set (deleted s) : gset loc).

(** [new X(v)] *)
Definition operator_new (v : T) : M T ptr :=
  λ _ s,
    let a := fresh_loc s in
    Ok (Some a, State (<[a:=v]> (heap s)) (deleted s)).

(** [delete p]: runs the destructor of a live object and releases it;
    deleting what is not live is undefined. *)
Definition operator_delete (p : ptr) : M T unit :=
  λ _ s,
    match p with
    | None => Ok (tt, s)
    | Some a =>
        match heap s !! a with
        | Some _ => Ok (tt, State (delete a (heap s)) (a :: deleted s))
        | None => Undefined
        end
    end.
End store.

(** ** Access paths

    [T*] and [T&] give read-write access, [const T*] and [const T&]
    read-only access. *)
Inductive access := ReadWrite | ReadOnly.

Record path := Path { acc : access; addr : ptr }.

Definition is_null (p : ptr) : bool :=
  match p with Some _ => false | None => true end.

Section paths.
Context {T : Type}.

(** Forming [*p]: the pointer must point to a live object. *)
Definition indirection (q : access) (p : ptr) : M T path :=
  λ _ s,
    match p with
    | None => Undefined
    | Some a =>
        match heap s !! a with
        | Some _ => Ok (Path q p, s)
        | None => Undefined
        end
    end.

(** Reading the object at the end of an access path. *)
Definition load (p : path) : M T T :=
  λ _ s,
    match addr p with
    | None => Undefined
    | Some a =>
        match heap s !! a with
        | Some v => Ok (v, s)
        | None => Undefined
        end
    end.
End paths.

(** ** Payload types

    What the templates need from [T]: a constructor, and member functions
    that are either const-qualified or not.  [body m] is the effect of the
    member function [m] on the object it is called on. *)
Class Payload (T : Type) := {
  Args : Type;
  construct : Args → T;
  method : Type;
  is_const : method → bool;
  body : method → T → T
}.

(** Const member functions leave the object as it is. *)
Definition const_correct (T : Type) `{Payload T} : Prop :=
  ∀ (m : method) (v : T), is_const m = true → body m v = v.

Section calls.
Context {T : Type} `{Payload T}.

(** The callee runs on the object at the end of the path. *)
Definition invoke (p : path) (m : method) : M T unit :=
  λ _ s,
    match addr p with
    | None => Undefined
    | Some a =>
        match heap s !! a with
        | Some v => Ok (tt, State (<[a:=body m v]> (heap s)) (deleted s))
        | None => Undefined
        end
    end.

(** [p->m()]: a member function that is not const-qualified cannot be
    called through a read-only path (error: discarding qualifiers). *)
Definition call (p : path) (m : method) : M T unit :=
  match acc p, is_const m with
  | ReadOnly, false => ill_formed
  | _, _ => invoke p m
  end.
End calls.

(** Value category of the expression a handle is initialised from. *)
Inductive category := lvalue | xvalue.

(** ** owner_ref *)
Module owner_ref.
Record t := Build { _p : ptr }.

Section members.
Context {T : Type}.

(** [owner_ref(owner_ref&& other)]; the result is the new handle and
    [other] as the constructor leaves it. *)
Definition move_ctor (other : t) : M T (t * t) :=
  let this := Build (_p other) in
  assert (negb (is_null (_p other)));;
  let other := Build nullptr in
  mret (this, other).

(** [operator=(owner_ref&& other)]; the result is [*this] and [other]
    as the assignment leaves them. *)
Definition move_assign (this other : t) : M T (t * t) :=
  assert (negb (is_null (_p other)));;
  assert (is_null (_p this));;
  let this := Build (_p other) in
  let other := Build nullptr in
  mret (this, other).

(** [~owner_ref()] *)
Definition dtor (this : t) : M T unit :=
  if negb (is_null (_p this)) then operator_delete (_p this) else mret tt.

(** [T* operator->() const] *)
Definition arrow (this : t) : M T path := mret (Path ReadWrite (_p this)).

(** [T& operator*() const] *)
Definition star (this : t) : M T path := indirection ReadWrite (_p this).

(** [explicit owner_ref(T* p)], private. *)
Definition from_raw (p : ptr) : t := Build p.

(** Initialising an owner_ref from an expression of type owner_ref.
    Overload resolution picks [owner_ref(const owner_ref&)] for an
    lvalue, and that constructor is deleted; an xvalue binds to
    [owner_ref&&].  The choice is made before anything runs. *)
Definition init {A} (c : category) (k : (t → M T (t * t)) → M T A) : M T A :=
  match c with
  | lvalue => ill_formed
  | xvalue => k move_ctor
  end.
End members.
End owner_ref.

(** [make_owner_ref<X>(args...)] *)
Definition make_owner_ref {T : Type} `{Payload T} (args : Args) : M T owner_ref.t :=
  p ← operator_new (construct args);
  mret (owner_ref.from_raw p).

(** ** shared_ref *)
Module shared_ref.
Record t := Build { _p : ptr }.

(** [shared_ref(owner_ref<T>& src)] *)
Definition from_owner (src : owner_ref.t) : t := Build (owner_ref._p src).

Section members.
Context {T : Type}.
Definition arrow (this : t) : M T path := mret (Path ReadWrite (_p this)).
Definition star (this : t) : M T path := indirection ReadWrite (_p this).
End members.
End shared_ref.

(** ** const_ref *)
Module const_ref.
Record t := Build { _p : ptr }.

(** [const_ref(const owner_ref<T>& src)] *)
Definition from_owner (src : owner_ref.t) : t := Build (owner_ref._p src).
(** [const_ref(const shared_ref<T>& src)] *)
Definition from_shared (src : shared_ref.t) : t := Build (shared_ref._p src).

Section members.
Context {T : Type}.
(** [const T* operator->() const] *)
Definition arrow (this : t) : M T path := mret (Path ReadOnly (_p this)).
(** [const T& operator*() const] *)
Definition star (this : t) : M T path := indirection ReadOnly (_p this).
End members.

(** All the members a client can reach. *)
Inductive member := Arrow | Star.

Definition apply {T : Type} (f : member) (this : t) : M T path :=
  match f with Arrow => arrow this | Star => star this end.
End const_ref.

(** ** std::stack<owner_ref<T>>, as far as owning_stack uses it *)
Module std_stack.
Section members.
Context {T : Type}.

(** [push(value_type&& x)]: the new top is move-constructed from [x]. *)
Definition push (c : list owner_ref.t) (x : owner_ref.t)
  : M T (list owner_ref.t * owner_ref.t) :=
  owner_ref.init xvalue (λ ctor,
    '(e, x) ← ctor x;
    mret (e :: c, x)).

(** [top()]: a reference to the top element; the container must not
    be empty. *)
Definition top (c : list owner_ref.t) : M T owner_ref.t :=
  match c with
  | [] => undefined
  | e :: _ => mret e
  end.

(** [pop()]: destroys the top element; the container must not be
    empty. *)
Definition pop (c : list owner_ref.t) : M T (list owner_ref.t) :=
  match c with
  | [] => undefined
  | e :: c' => owner_ref.dtor e;; mret c'
  end.
End members.
End std_stack.

(** ** owning_stack *)
Module owning_stack.
Record t := Build { _v : list owner_ref.t }.

Section members.
Context {T : Type}.

(** [void push(owner_ref<T>&& p)]; the result is the stack and [p] as
    the call leaves them. *)
Definition push (this : t) (p : owner_ref.t) : M T (t * owner_ref.t) :=
  '(v, p) ← std_stack.push (_v this) p;
  mret (Build v, p).

(** [shared_ref<T> top()] *)
Definition top (this : t) : M T shared_ref.t :=
  e ← std_stack.top (_v this);
  mret (shared_ref.from_owner e).

(** The statements of [pop()], with the constructor that initialises
    [r] left open.  The constructor works on the top element in
    place; [r] is returned without a further move (copy elision). *)
Definition pop_body (ctor : owner_ref.t → M T (owner_ref.t * owner_ref.t))
    (this : t) : M T (owner_ref.t * t) :=
  e ← std_stack.top (_v this);
  '(r, e) ← ctor e;
  v ← std_stack.pop (e :: tail (_v this));
  mret (r, Build v).

(** [owner_ref<T> pop()]: [r] is initialised from the lvalue
    [_v.top()]. *)
Definition pop (this : t) : M T (owner_ref.t * t) :=
  owner_ref.init lvalue (λ ctor, pop_body ctor this).

(** What [pop()] would be with [std::move(_v.top())]. *)
Definition pop_moving (this : t) : M T (owner_ref.t * t) :=
  owner_ref.init xvalue (λ ctor, pop_body ctor this).
End members.
End owning_stack.

(** Content seen through a handle: [*r] read as a value. *)
Definition deref {T : Type} (r : owner_ref.t) : M T T :=
  p ← owner_ref.star r; load p.

(** ** The payload of the example *)

(** [struct Trace]: no data members; [foo] is const, [bar] is not. *)
Inductive Trace := trace.
Inductive Trace_method := foo | bar.

#[global] Instance Trace_payload : Payload Trace := {|
  Args := unit;
  construct := λ _, trace;
  method := Trace_method;
  is_const := λ m, match m with foo => true | bar => false end;
  body := λ _ v, v
|}.

(** ** The functions of the example *)

Definition produce : M Trace owner_ref.t := make_owner_ref (tt : Args).

(** [void look(const_ref<Trace> p)] *)
Definition look (p : const_ref.t) : M Trace unit :=
  q ← const_ref.arrow p; call q foo.

(** [look] with the line [p->bar();] that the source keeps commented
    out. *)
Definition look_bar (p : const_ref.t) : M Trace unit :=
  q ← const_ref.arrow p; call q foo;;
  q ← const_ref.arrow p; call q bar.

(** [void modify(shared_ref<Trace> p)] *)
Definition modify (p : shared_ref.t) : M Trace unit :=
  q ← shared_ref.arrow p; call q bar;;
  look (const_ref.from_shared p).

(** [void consume(owner_ref<Trace>&& p)] *)
Definition consume (p : owner_ref.t) : M Trace unit :=
  modify (shared_ref.from_owner p).

Definition empty_state {T} : state T := State ∅ [].

(** ** Client code

    A client holds handles in named variables and one owning_stack.  The
    statements are what the public interface of owner_ref and owning_stack
    lets a client write, together with the declarations the class
    rules out.  [moved] is ghost state: the variables that were the source
    of a move and have not been assigned to since. *)
Record frame := Frame {
  vars : gmap string owner_ref.t;
  moved : gset string;
  stack : owning_stack.t
}.

Definition empty_frame : frame := Frame ∅ ∅ (owning_stack.Build []).

Section client.
Context {T : Type} `{Payload T}.

Inductive stmt :=
| Make (x : string) (args : Args)   (* auto x = make_owner_ref<T>(args); *)
| MoveCtor (x y : string)           (* owner_ref<T> x(std::move(y)); *)
| MoveAssign (x y : string)         (* x = std::move(y); *)
| Push (y : string)                 (* s.push(std::move(y)); *)
| Pop (x : string)                  (* owner_ref<T> x = s.pop(); *)
| Top                               (* s.top(); *)
| Leave (x : string)                (* the scope of x ends *)
| DefaultCtor (x : string)          (* owner_ref<T> x; *)
| CopyCtor (x y : string)           (* owner_ref<T> x(y); *)
| CopyAssign (x y : string)         (* x = y; *)
| RawCtor (x : string) (p : ptr).   (* owner_ref<T> x(p); *)

(** A declaration needs a new name, a use a declared one. *)
Definition declare (x : string) (f : frame) (k : M T frame) : M T frame :=
  match vars f !! x with
  | Some _ => ill_formed
  | None => k
  end.

Definition use (y : string) (f : frame) (k : owner_ref.t → M T frame) : M T frame :=
  match vars f !! y with
  | Some r => k r
  | None => ill_formed
  end.

(** The source of a move is written back after the destination, as the
    member functions do ([other._p = nullptr] comes last). *)
Definition exec (c : stmt) (f : frame) : M T frame :=
  match c with
  | Make x args =>
      declare x f (
        r ← make_owner_ref args;
        mret (Frame (<[x:=r]> (vars f)) (moved f) (stack f)))
  | MoveCtor x y =>
      declare x f (use y f (λ ry,
        owner_ref.init xvalue (λ ctor,
          '(rx, ry) ← ctor ry;
          mret (Frame (<[y:=ry]> (<[x:=rx]> (vars f)))
                      (moved f ∪ {[y]}) (stack f)))))
  | MoveAssign x y =>
      use x f (λ rx, use y f (λ ry,
        '(rx, ry) ← owner_ref.move_assign rx ry;
        mret (Frame (<[y:=ry]> (<[x:=rx]> (vars f)))
                    ((moved f ∖ {[x]}) ∪ {[y]}) (stack f))))
  | Push y =>
      use y f (λ ry,
        '(st, ry) ← owning_stack.push (stack f) ry;
        mret (Frame (<[y:=ry]> (vars f)) (moved f ∪ {[y]}) st))
  | Pop x =>
      declare x f (
        '(r, st) ← owning_stack.pop (stack f);
        mret (Frame (<[x:=r]> (vars f)) (moved f) st))
  | Top =>
      owning_stack.top (stack f);; mret f
  | Leave x =>
      use x f (λ r,
        owner_ref.dtor r;;
        mret (Frame (delete x (vars f)) (moved f ∖ {[x]}) (stack f)))
  | DefaultCtor x => ill_formed      (* owner_ref() = delete *)
  | CopyCtor x y =>
      declare x f (use y f (λ ry,
        owner_ref.init lvalue (λ ctor,
          '(rx, ry) ← ctor ry;
          mret (Frame (<[y:=ry]> (<[x:=rx]> (vars f))) (moved f) (stack f)))))
  | CopyAssign x y => ill_formed     (* operator=(const owner_ref&) = delete *)
  | RawCtor x p => ill_formed        (* the constructor from T* is private *)
  end.

Fixpoint run (prog : list stmt) (f : frame) : M T frame :=
  match prog with
  | [] => mret f
  | c :: prog => f ← exec c f; run prog f
  end.

(** The variable a statement moves from, if any. *)
Definition source (c : stmt) : option string :=
  match c with
  | MoveCtor _ y | MoveAssign _ y | Push y => Some y
  | _ => None
  end.

(** The statement does not move from an empty handle. *)
Definition disciplined (c : stmt) (f : frame) : Prop :=
  ∀ y r, source c = Some y → vars f !! y = Some r → owner_ref._p r ≠ None.
End client.

Arguments stmt T {_}.

(** A handle is empty exactly when it is in the moved-from state, and the
    stack stores no empty handle. *)
Definition handle_inv (f : frame) : Prop :=
  (∀ x r, vars f !! x = Some r → (owner_ref._p r = None ↔ x ∈ moved f)) ∧
  moved f ⊆ dom (vars f) ∧
  Forall (λ e, owner_ref._p e ≠ None) (owning_stack._v (stack f)).

(** Ownership as seen from the variables: every address held by a
    handle, in a variable or on the stack, is live; no two variables hold
    the same address; and no variable holds the address of a stack
    element.  That the stack elements differ among themselves is
    [stack_distinct]. *)
Definition own_inv {T : Type} (f : frame) (s : state T) : Prop :=
  (∀ x r a, vars f !! x = Some r → owner_ref._p r = Some a →
     is_Some (heap s !! a)) ∧
  (∀ e a, e ∈ owning_stack._v (stack f) → owner_ref._p e = Some a →
     is_Some (heap s !! a)) ∧
  (∀ x y rx ry a, vars f !! x = Some rx → vars f !! y = Some ry →
     owner_ref._p rx = Some a → owner_ref._p ry = Some a → x = y) ∧
  (∀ x rx e a, vars f !! x = Some rx → owner_ref._p rx = Some a →
     e ∈ owning_stack._v (stack f) → owner_ref._p e ≠ Some a).

(** No two elements of the stack hold the same address. *)
Definition stack_distinct (f : frame) : Prop :=
  NoDup (omap owner_ref._p (owning_stack._v (stack f))).

(** The destructor log never names an address twice, nor a live one. *)
Definition store_inv {T : Type} (s : state T) : Prop :=
  NoDup (deleted s) ∧ ∀ a, a ∈ deleted s → heap s !! a = None.

(** No leak: every live object is held by a handle. *)
Definition no_leak {T : Type} (f : frame) (s : state T) : Prop :=
  ∀ a, is_Some (heap s !! a) →
    (∃ x r, vars f !! x = Some r ∧ owner_ref._p r = Some a) ∨
    (∃ e, e ∈ owning_stack._v (stack f) ∧ owner_ref._p e = Some a).

(** Running a chain of [n] move-constructions from [r]: the last handle
    of the chain and the moved-from handles left behind. *)
Fixpoint move_chain {T : Type} (n : nat) (r : owner_ref.t)
  : M T (owner_ref.t * list owner_ref.t) :=
  match n with
  | O => mret (r, [])
  | S n =>
      '(r', husk) ← owner_ref.move_ctor r;
      '(last, husks) ← move_chain n r';
      mret (last, husk :: husks)
  end.

Fixpoint dtor_all {T : Type} (rs : list owner_ref.t) : M T unit :=
  match rs with
  | [] => mret tt
  | r :: rs => owner_ref.dtor r;; dtor_all rs
  end.

(** One allocation from creation to the end of every handle that ever
    held it. *)
Definition lifetime {T : Type} `{Payload T} (n : nat) (args : Args) : M T unit :=
  r ← make_owner_ref args;
  '(last, husks) ← move_chain n r;
  dtor_all (last :: husks).

(** A sequence of uses of one const_ref: each picks a member of const_ref
    and calls a member function of the payload through its result. *)
Fixpoint use_all {T : Type} `{Payload T} (c : const_ref.t)
    (uses : list (const_ref.member * method)) : M T unit :=
  match uses with
  | [] => mret tt
  | (f, m) :: uses => (p ← const_ref.apply f c; call p m);; use_all c uses
  end.

(** Discipline along a run: no statement moves from an empty handle. *)
Fixpoint well_behaved {T : Type} `{Payload T} (prog : list (stmt T)) (f : frame)
    (b : build) (s : state T) : Prop :=
  match prog with
  | [] => True
  | c :: prog =>
      disciplined c f ∧
      match exec c f b s with
      | Ok (f', s') => well_behaved prog f' b s'
      | _ => True
      end
  end.

(** The outcome [res] of a move from [src] in store [s]: it returns the
    destination [this] and the source [other] without touching the store,
    the source is left empty, and the destination holds what [src] held. *)
Definition transferred {T : Type} (src : owner_ref.t) (b : build) (s : state T)
    (res : outcome (owner_ref.t * owner_ref.t * state T)) : Prop :=
  ∃ this other,
    res = Ok (this, other, s) ∧
    owner_ref._p other = None ∧
    owner_ref._p this = owner_ref._p src ∧
    deref (T:=T) this b s = deref src b s ∧
    ∀ a v, owner_ref._p src = Some a → heap s !! a = Some v →
           deref this b s = Ok (v, s).

(** ** Further members and uses

    The destructor of owning_stack is implicit: it destroys [_v], and the
    container destroys its elements from the oldest to the newest. *)
Definition owning_stack_dtor {T : Type} (this : owning_stack.t) : M T unit :=
  dtor_all (reverse (owning_stack._v this)).

(** [s.push(std::move(h))] for each handle of [hs] in turn; the result is
    the stack and the handles as the calls leave them. *)
Fixpoint push_all {T : Type} (this : owning_stack.t) (hs : list owner_ref.t)
  : M T (owning_stack.t * list owner_ref.t) :=
  match hs with
  | [] => mret (this, [])
  | h :: hs =>
      '(this, h) ← owning_stack.push this h;
      '(this, hs) ← push_all this hs;
      mret (this, h :: hs)
  end.

(** ** The whole program

    The program allocates objects of two types, so it runs on two stores,
    one per type, and it writes to standard output.  [out] lists what was
    written, one entry per output statement, oldest first. *)
Record world := World {
  traces : state Trace;
  stacks : state owning_stack.t;
  out : list string
}.

Definition empty_world : world := World empty_state empty_state [].

Definition IO (A : Type) : Type := build → world → outcome (A * world).

#[global] Instance IO_ret : MRet IO := λ A a _ w, Ok (a, w).

#[global] Instance IO_bind : MBind IO :=
  λ A B (k : A → IO B) (m : IO A) b w,
    match m b w with
    | Ok (a, w') => k a b w'
    | AssertFail => AssertFail
    | Undefined => Undefined
    | IllFormed => IllFormed
    end.

(** A computation on the Trace objects, and one on the stack objects. *)
Definition on_traces {A} (m : M Trace A) : IO A :=
  λ b w,
    match m b (traces w) with
    | Ok (a, s) => Ok (a, World s (stacks w) (out w))
    | AssertFail => AssertFail
    | Undefined => Undefined
    | IllFormed => IllFormed
    end.

Definition on_stacks {A} (m : M owning_stack.t A) : IO A :=
  λ b w,
    match m b (stacks w) with
    | Ok (a, s) => Ok (a, World (traces w) s (out w))
    | AssertFail => AssertFail
    | Undefined => Undefined
    | IllFormed => IllFormed
    end.

Definition print (text : string) : IO unit :=
  λ _ w, Ok (tt, World (traces w) (stacks w) (out w ++ [text])).

(** [std::endl], and the lines of [struct Trace]. *)
Definition endl : string := String (Ascii.ascii_of_nat 10) EmptyString.
Definition line_ctor : string := "    ctor" +:+ endl.
Definition line_dtor : string := "    dtor" +:+ endl.
Definition line_foo : string := "    foo const" +:+ endl.
Definition line_bar : string := "    bar" +:+ endl.

(** Writing through an access path: [*p = v] needs a read-write path to
    a live object. *)
Definition store {T : Type} (p : path) (v : T) : M T unit :=
  match acc p with
  | ReadOnly => ill_formed
  | ReadWrite =>
      λ _ s,
        match addr p with
        | None => Undefined
        | Some a =>
            match heap s !! a with
            | Some _ => Ok (tt, State (<[a:=v]> (heap s)) (deleted s))
            | None => Undefined
            end
        end
  end.

(** [owning_stack<Trace>] as a payload: default-constructed empty; its
    member functions take and return handles and are modelled by
    [owning_stack.push] and [owning_stack.top]. *)
#[global] Instance owning_stack_payload : Payload owning_stack.t | 100 := {|
  Args := unit;
  construct := λ _, owning_stack.Build [];
  method := Empty_set;
  is_const := λ m, match m with end;
  body := λ m, match m with end
|}.

(** [auto produce()]: [Trace()] prints its line. *)
Definition produce_io : IO owner_ref.t :=
  r ← on_traces produce;
  print line_ctor;;
  mret r.

(** A call of [foo] or [bar] through a path, with what the member
    function prints. *)
Definition Trace_call (q : path) (m : Trace_method) : IO unit :=
  on_traces (call (T:=Trace) q m);;
  print (match m with foo => line_foo | bar => line_bar end).

Definition look_io (p : const_ref.t) : IO unit :=
  q ← on_traces (const_ref.arrow p);
  Trace_call q foo.

Definition modify_io (p : shared_ref.t) : IO unit :=
  q ← on_traces (shared_ref.arrow p);
  Trace_call q bar;;
  look_io (const_ref.from_shared p).

Definition consume_io (p : owner_ref.t) : IO unit :=
  modify_io (shared_ref.from_owner p).

(** [~owner_ref<Trace>()]: [delete _p] runs [~Trace()], which prints, and
    releases the object. *)
Definition Trace_handle_dtor (this : owner_ref.t) : IO unit :=
  if negb (is_null (owner_ref._p this))
  then print line_dtor;; on_traces (operator_delete (owner_ref._p this))
  else mret tt.

(** [s->push(std::move(x))] and [s->top()] for a shared_ref [s] to a
    stack: the member function runs on the stack object in place. *)
Definition stack_push (s : shared_ref.t) (x : owner_ref.t) : IO owner_ref.t :=
  q ← on_stacks (shared_ref.arrow s);
  st ← on_stacks (load q);
  '(st, x) ← on_traces (owning_stack.push st x);
  on_stacks (store q st);;
  mret x.

Definition stack_top (s : shared_ref.t) : IO shared_ref.t :=
  q ← on_stacks (shared_ref.arrow s);
  st ← on_stacks (load q);
  on_traces (owning_stack.top st).

(** [void test(shared_ref<owning_stack<Trace>> s)].  The temporary that
    [produce()] returns in [x = produce()] is destroyed at the end of
    that statement, [x] at the end of the function. *)
Definition test (s : shared_ref.t) : IO unit :=
  x ← produce_io;
  modify_io (shared_ref.from_owner x);;
  x ← stack_push s x;
  v ← stack_top s;
  modify_io v;;
  v ← stack_top s;
  look_io (const_ref.from_shared v);;
  tmp ← produce_io;
  '(x, tmp) ← on_traces (owner_ref.move_assign x tmp);
  Trace_handle_dtor tmp;;
  consume_io x;;
  Trace_handle_dtor x.

(** [~owning_stack<Trace>()] with the output of its elements, and
    [~owner_ref<owning_stack<Trace>>()]. *)
Fixpoint dtor_all_io (rs : list owner_ref.t) : IO unit :=
  match rs with
  | [] => mret tt
  | r :: rs => Trace_handle_dtor r;; dtor_all_io rs
  end.

Definition owning_stack_dtor_io (this : owning_stack.t) : IO unit :=
  dtor_all_io (reverse (owning_stack._v this)).

Definition stack_handle_dtor (this : owner_ref.t) : IO unit :=
  if negb (is_null (owner_ref._p this))
  then
    st ← on_stacks (load (Path ReadWrite (owner_ref._p this)));
    owning_stack_dtor_io st;;
    on_stacks (operator_delete (owner_ref._p this))
  else mret tt.

(** [for (int i = first; i < first + n; i++) body(i);] *)
Fixpoint for_loop (n : nat) (i : nat) (body : nat → IO unit) : IO unit :=
  match n with
  | O => mret tt
  | S n => body i;; for_loop n (S i) body
  end.

(** [printf] of [%d]. *)
Definition dec (i : nat) : string := NilZero.string_of_uint (Nat.to_uint i).

Definition loop_header (i : nat) : string :=
  endl +:+ "loop " +:+ dec i +:+ ":" +:+ endl.

Definition loop_ended : string := endl +:+ "loop ended" +:+ endl.

(** [int main()] with the bound of its loop as a parameter; [s] is
    destroyed after [return 0] has fixed the result. *)
Definition main_upto (n : nat) : IO Z :=
  s ← on_stacks (make_owner_ref (T:=owning_stack.t) tt);
  for_loop n 0 (λ i, print (loop_header i);; test (shared_ref.from_owner s));;
  print loop_ended;;
  stack_handle_dtor s;;
  mret 0%Z.

Definition main : IO Z := main_upto 2.

(** What one call of [test] prints, and what [main_upto n] prints. *)
Definition test_output : list string :=
  [line_ctor; line_bar; line_foo; line_bar; line_foo; line_foo;
   line_ctor; line_bar; line_foo; line_dtor].

Definition main_output (n : nat) : list string :=
  concat ((λ i, loop_header i :: test_output) <$> seq 0 n)
  ++ [loop_ended] ++ replicate n line_dtor.

(** The store after allocating a Trace at each address of [addrs]. *)
Definition objects (addrs : list loc) (h : gmap loc Trace) : gmap loc Trace :=
  foldr (λ a h, <[a:=trace]> h) h addrs.

(** * Properties *)

#[local] Set Warnings "-clear-no-such-hyp".

Ltac cxx_unfold :=
  unfold mbind, M_bind, mret, M_ret, assert, undefined, ill_formed in *.

Ltac cxx_simpl := repeat (cxx_unfold; cbn in *).

(** Case analysis on lookups in updated maps and lists. *)
Ltac inv_lookup :=
  repeat match goal with
  | H : <[_:=_]> _ !! _ = Some _ |- _ =>
      apply lookup_insert_Some in H as [[<- <-]|[? H]]
  | H : delete _ _ !! _ = Some _ |- _ =>
      apply lookup_delete_Some in H as [? H]
  | H : _ ∈ _ :: _ |- _ => apply elem_of_cons in H as [->|H]
  end.

Ltac own_solve :=
  cbn in *; simplify_eq; try done;
  try (by eauto);
  try (exfalso; by eauto);
  try (rewrite ?lookup_insert, ?lookup_delete; repeat case_decide; simplify_eq; by eauto).

Section handle_lemmas.
Context {T : Type}.
Implicit Types (r src dst : owner_ref.t) (s : state T) (b : build).

Lemma is_null_false (p : ptr) : p ≠ None → is_null p = false.
Proof. by destruct p. Qed.

Lemma is_null_true (p : ptr) : p = None → is_null p = true.
Proof. by intros ->. Qed.

Lemma move_ctor_nonempty src b s :
  owner_ref._p src ≠ None →
  owner_ref.move_ctor src b s
  = Ok (owner_ref.Build (owner_ref._p src), owner_ref.Build None, s).
Proof.
  intros Hsrc. unfold owner_ref.move_ctor. cxx_simpl.
  rewrite (is_null_false _ Hsrc). by destruct b.
Qed.

Lemma move_ctor_empty_debug src s :
  owner_ref._p src = None → owner_ref.move_ctor src Debug s = AssertFail.
Proof. intros Hsrc. unfold owner_ref.move_ctor. cxx_simpl. by rewrite Hsrc. Qed.

Lemma move_ctor_release src s :
  owner_ref.move_ctor src Release s
  = Ok (owner_ref.Build (owner_ref._p src), owner_ref.Build None, s).
Proof. reflexivity. Qed.

Lemma move_assign_release dst src s :
  owner_ref.move_assign dst src Release s
  = Ok (owner_ref.Build (owner_ref._p src), owner_ref.Build None, s).
Proof. reflexivity. Qed.

Lemma move_assign_debug dst src s :
  owner_ref.move_assign dst src Debug s
  = if negb (is_null (owner_ref._p src)) && is_null (owner_ref._p dst)
    then Ok (owner_ref.Build (owner_ref._p src), owner_ref.Build None, s)
    else AssertFail.
Proof.
  unfold owner_ref.move_assign. cxx_simpl.
  by destruct (owner_ref._p src), (owner_ref._p dst).
Qed.

(** Move-assignment into a handle that still owns an object stops on
    [assert(_p == nullptr)]. *)
Lemma move_assign_nonempty_dst_debug dst src s :
  owner_ref._p dst ≠ None → owner_ref.move_assign dst src Debug s = AssertFail.
Proof.
  intros Hdst. rewrite move_assign_debug, (is_null_false _ Hdst).
  by rewrite andb_false_r.
Qed.

Lemma deref_build r b s : deref (T:=T) (owner_ref.Build (owner_ref._p r)) b s = deref r b s.
Proof. by destruct r. Qed.

Lemma deref_live r b s a v :
  owner_ref._p r = Some a → heap s !! a = Some v → deref r b s = Ok (v, s).
Proof.
  intros Hr Ha. unfold deref, owner_ref.star, indirection, load. cxx_simpl.
  rewrite Hr, Ha. cbn. by rewrite Ha.
Qed.

Lemma deref_empty r b s : owner_ref._p r = None → deref (T:=T) r b s = Undefined.
Proof.
  intros Hr. unfold deref, owner_ref.star, indirection. cxx_simpl. by rewrite Hr.
Qed.

Lemma dtor_nonempty r b s a v :
  owner_ref._p r = Some a → heap s !! a = Some v →
  owner_ref.dtor r b s = Ok (tt, State (delete a (heap s)) (a :: deleted s)).
Proof.
  intros Hr Ha. unfold owner_ref.dtor, operator_delete. rewrite Hr. cbn. by rewrite Ha.
Qed.

Lemma dtor_empty r b s :
  owner_ref._p r = None → owner_ref.dtor r b s = Ok (tt, s).
Proof. intros Hr. unfold owner_ref.dtor. by rewrite Hr. Qed.
End handle_lemmas.

(** C1. Moving from a non-empty owner_ref transfers ownership: the move
    constructor, and the move assignment into an empty destination (or
    into any destination when the asserts are compiled out), return
    without touching the store, leave the source empty, and the
    destination dereferences to what the source dereferenced to before
    the move. *)
Theorem move_transfers_ownership {T : Type} (b : build)
    (src dst : owner_ref.t) (s : state T) :
  owner_ref._p src ≠ None →
  b = Release ∨ owner_ref._p dst = None →
  transferred src b s (owner_ref.move_ctor src b s) ∧
  transferred src b s (owner_ref.move_assign dst src b s).
Proof.
  intros Hsrc Hdst. split.
  - rewrite (move_ctor_nonempty _ _ _ Hsrc).
    eexists _, _. repeat split. intros a v Ha. by apply deref_live.
  - assert (owner_ref.move_assign dst src b s
            = Ok (owner_ref.Build (owner_ref._p src), owner_ref.Build None, s)) as ->.
    { destruct b; [|apply move_assign_release].
      destruct Hdst as [|Hdst]; [done|].
      by rewrite move_assign_debug, (is_null_false _ Hsrc), (is_null_true _ Hdst). }
    eexists _, _. repeat split. intros a v Ha. by apply deref_live.
Qed.

Lemma move_transfers_ownership_witness :
  let src := owner_ref.Build (Some 1%positive) in
  let dst := owner_ref.Build None in
  let s : state Trace := State {[1%positive := trace]} [] in
  (owner_ref._p src ≠ None ∧ (Debug = Release ∨ owner_ref._p dst = None)) ∧
  (transferred src Debug s (owner_ref.move_ctor src Debug s) ∧
   transferred src Debug s (owner_ref.move_assign dst src Debug s)).
Proof.
  intros src dst s.
  assert (H1 : owner_ref._p src ≠ None) by discriminate.
  assert (H2 : Debug = Release ∨ owner_ref._p dst = None) by (right; reflexivity).
  exact (conj (conj H1 H2) (move_transfers_ownership Debug src dst s H1 H2)).
Defined.

Section allocation_lemmas.
Context {T : Type} `{Payload T}.
Implicit Types (s : state T) (b : build).

Lemma fresh_loc_not_live s : heap s !! fresh_loc s = None.
Proof.
  apply not_elem_of_dom. intros Hin.
  apply (is_fresh (dom (heap s) ∪ list_to_set (deleted s) : gset loc)).
  apply elem_of_union_l, Hin.
Qed.

Lemma fresh_loc_not_deleted s : fresh_loc s ∉ deleted s.
Proof.
  intros Hin.
  apply (is_fresh (dom (heap s) ∪ list_to_set (deleted s) : gset loc)).
  apply elem_of_union_r, elem_of_list_to_set, Hin.
Qed.

Lemma make_owner_ref_eq (args : Args) b s :
  make_owner_ref args b s
  = Ok (owner_ref.Build (Some (fresh_loc s)),
        State (<[fresh_loc s:=construct args]> (heap s)) (deleted s)).
Proof. reflexivity. Qed.

Lemma move_chain_nonempty n (r : owner_ref.t) b s :
  owner_ref._p r ≠ None →
  move_chain n r b s
  = Ok (owner_ref.Build (owner_ref._p r), replicate n (owner_ref.Build None), s).
Proof.
  revert r. induction n as [|n IH]; intros r Hr.
  - by destruct r.
  - cbn [move_chain]. cxx_unfold.
    rewrite (move_ctor_nonempty _ _ _ Hr). cbn.
    rewrite IH by done. reflexivity.
Qed.

Lemma dtor_all_empty n b s :
  dtor_all (replicate n (owner_ref.Build None)) b s = Ok (tt, s).
Proof. induction n as [|n IH]; [done|]. cbn. cxx_unfold. cbn. apply IH. Qed.
End allocation_lemmas.

(** C6. [make_owner_ref<T>(args)] returns a non-empty handle to a fresh
    object; dereferencing the handle gives [T(args)], and no other object
    of the store is touched. *)
Theorem make_owner_ref_correct {T : Type} `{Payload T}
    (args : Args) (b : build) (s : state T) :
  ∃ r s',
    make_owner_ref args b s = Ok (r, s') ∧
    owner_ref._p r = Some (fresh_loc s) ∧
    heap s !! fresh_loc s = None ∧
    deref r b s' = Ok (construct args, s') ∧
    heap s' = <[fresh_loc s:=construct args]> (heap s) ∧
    deleted s' = deleted s.
Proof.
  eexists _, _. split; [apply make_owner_ref_eq|].
  repeat split.
  - apply fresh_loc_not_live.
  - eapply deref_live; [done|]. apply lookup_insert_eq.
Qed.

(** C2. The destructor of a non-empty owner_ref deletes the referenced
    object exactly once, the destructor of an empty one deletes nothing;
    and over the life of an allocation (creation, any number of moves,
    destruction of every handle involved) the payload destructor runs
    exactly once for it, leaving the rest of the store as it was. *)
Theorem dtor_deallocates_exactly_once {T : Type} `{Payload T} :
  (∀ (r : owner_ref.t) b (s : state T) a v,
     owner_ref._p r = Some a → heap s !! a = Some v →
     owner_ref.dtor r b s = Ok (tt, State (delete a (heap s)) (a :: deleted s))) ∧
  (∀ (r : owner_ref.t) b (s : state T),
     owner_ref._p r = None → owner_ref.dtor r b s = Ok (tt, s)) ∧
  (∀ n (args : Args) b (s : state T),
     ∃ a, (a ∉ deleted s) ∧ heap s !! a = None ∧
          lifetime n args b s = Ok (tt, State (heap s) (a :: deleted s))).
Proof.
  split; [|split].
  - intros r b s a v. apply dtor_nonempty.
  - intros r b s. apply dtor_empty.
  - intros n args b s. exists (fresh_loc s).
    split; [apply fresh_loc_not_deleted|]. split; [apply fresh_loc_not_live|].
    unfold lifetime. cxx_unfold. rewrite make_owner_ref_eq.
    rewrite move_chain_nonempty by done. cbn [dtor_all]. cxx_unfold.
    erewrite dtor_nonempty; [|done|apply lookup_insert_eq]. cbn [heap deleted].
    rewrite dtor_all_empty, delete_insert_id by apply fresh_loc_not_live.
    reflexivity.
Qed.

Lemma dtor_deallocates_exactly_once_witness :
  let s : state Trace := State {[1%positive := trace]} [] in
  owner_ref.dtor (owner_ref.Build (Some 1%positive)) Debug s
    = Ok (tt, State (delete 1%positive (heap s)) [1%positive]) ∧
  owner_ref.dtor (owner_ref.Build None) Debug s = Ok (tt, s) ∧
  ∃ a, (a ∉ deleted s) ∧ heap s !! a = None ∧
       lifetime 3 (tt : Args) Debug s = Ok (tt, State (heap s) (a :: deleted s)).
Proof.
  intros s.
  pose proof (dtor_deallocates_exactly_once (T:=Trace)) as (H1 & H2 & H3).
  exact (conj (H1 (owner_ref.Build (Some 1%positive)) Debug s 1%positive trace
                 eq_refl eq_refl)
         (conj (H2 (owner_ref.Build None) Debug s eq_refl)
               (H3 3 tt Debug s))).
Defined.

(** C7, as the specification states it, fails: in a build with asserts the
    move constructor and the move assignment stop on
    [assert(other._p != nullptr)] when the source is already empty, and
    without asserts the move assignment overwrites a non-empty
    destination. *)
Lemma move_from_empty_not_noop :
  let husk := owner_ref.Build None in
  let s : state Trace := State {[1%positive := trace]} [] in
  owner_ref.move_ctor husk Debug s = AssertFail ∧
  owner_ref.move_assign husk husk Debug s = AssertFail ∧
  owner_ref.move_assign (owner_ref.Build (Some 1%positive)) husk Release s
    = Ok (owner_ref.Build None, husk, s) ∧
  ¬ ∀ (b : build) (dst src : owner_ref.t) (s : state Trace),
      owner_ref._p src = None →
      owner_ref.move_assign dst src b s = Ok (dst, src, s).
Proof.
  intros husk s. repeat split.
  intros Hnoop. by specialize (Hnoop Debug husk husk s eq_refl).
Qed.

(** C7, amended. A move from an empty owner_ref never deletes anything.
    With asserts it stops on [assert(other._p != nullptr)] before any
    handle is written; without asserts it returns, the store is unchanged,
    the source stays empty and the destination is empty afterwards (so an
    empty destination is unchanged). *)
Theorem move_from_empty {T : Type} (src dst : owner_ref.t) (s : state T) :
  owner_ref._p src = None →
  owner_ref.move_ctor src Debug s = AssertFail ∧
  owner_ref.move_assign dst src Debug s = AssertFail ∧
  owner_ref.move_ctor src Release s
    = Ok (owner_ref.Build None, owner_ref.Build None, s) ∧
  owner_ref.move_assign dst src Release s
    = Ok (owner_ref.Build None, owner_ref.Build None, s).
Proof.
  intros Hsrc. split; [by apply move_ctor_empty_debug|]. split.
  - by rewrite move_assign_debug, (is_null_true _ Hsrc).
  - by rewrite move_ctor_release, move_assign_release, Hsrc.
Qed.

Lemma move_from_empty_witness :
  let src := owner_ref.Build None in
  let dst := owner_ref.Build None in
  let s : state Trace := State {[1%positive := trace]} [] in
  owner_ref._p src = None ∧
  owner_ref.move_ctor src Debug s = AssertFail ∧
  owner_ref.move_assign dst src Debug s = AssertFail ∧
  owner_ref.move_ctor src Release s = Ok (owner_ref.Build None, owner_ref.Build None, s) ∧
  owner_ref.move_assign dst src Release s
    = Ok (owner_ref.Build None, owner_ref.Build None, s).
Proof.
  intros src dst s.
  exact (conj eq_refl (move_from_empty src dst s eq_refl)).
Defined.

(** C9, as the specification states it, fails: neither dereference
    operator of owner_ref contains an assert.  On an empty handle
    [operator->] returns the null pointer in every build, and [operator*]
    is undefined rather than a failed assert. *)
Lemma deref_empty_no_assert :
  let husk := owner_ref.Build None in
  let s : state Trace := empty_state in
  owner_ref.arrow husk Debug s ≠ AssertFail ∧
  owner_ref.star husk Debug s ≠ AssertFail ∧
  owner_ref.arrow husk Debug s = Ok (Path ReadWrite None, s).
Proof. intros husk s. by repeat split. Qed.

(** C9, amended. Dereferencing an empty owner_ref is not checked in any
    build: [operator->] returns the null pointer and leaves the store
    alone, and [operator*] has undefined behaviour, as has reading through
    either result. *)
Theorem deref_empty_unchecked {T : Type} (r : owner_ref.t) (b : build) (s : state T) :
  owner_ref._p r = None →
  owner_ref.arrow r b s = Ok (Path ReadWrite None, s) ∧
  owner_ref.star r b s = Undefined ∧
  (p ← owner_ref.arrow r; load p) b s = Undefined ∧
  deref r b s = Undefined.
Proof.
  intros Hr. unfold owner_ref.arrow, owner_ref.star, deref, owner_ref.star, indirection, load.
  cxx_simpl. by rewrite Hr.
Qed.

Lemma deref_empty_unchecked_witness :
  let r := owner_ref.Build None in
  let s : state Trace := State {[1%positive := trace]} [] in
  owner_ref._p r = None ∧
  owner_ref.arrow r Debug s = Ok (Path ReadWrite None, s) ∧
  owner_ref.star r Debug s = Undefined ∧
  (p ← owner_ref.arrow r; load p) Debug s = Undefined ∧
  deref r Debug s = Undefined.
Proof.
  intros r s. exact (conj eq_refl (deref_empty_unchecked r Debug s eq_refl)).
Defined.

(** C8, as the specification states it, fails: [owning_stack::top] has no
    assert of its own; on an empty stack it forwards to
    [std::stack::top], which is undefined there, also when asserts are
    compiled in. *)
Lemma top_empty_no_assert :
  owning_stack.top (owning_stack.Build []) Debug (empty_state : state Trace) ≠ AssertFail ∧
  owning_stack.top (owning_stack.Build []) Debug (empty_state : state Trace) = Undefined.
Proof. by split. Qed.

(** C8, amended. [top()] on an empty owning_stack is not checked in any
    build: it has undefined behaviour and no assert of the program
    fires. *)
Theorem top_empty_undefined {T : Type} (b : build) (s : state T) :
  owning_stack.top (owning_stack.Build []) b s = Undefined.
Proof. reflexivity. Qed.

Section stack_lemmas.
Context {T : Type}.
Implicit Types (st : owning_stack.t) (h : owner_ref.t) (s : state T) (b : build).

Lemma push_nonempty st h b s :
  owner_ref._p h ≠ None →
  owning_stack.push st h b s
  = Ok (owning_stack.Build (owner_ref.Build (owner_ref._p h) :: owning_stack._v st),
        owner_ref.Build None, s).
Proof.
  intros Hh. unfold owning_stack.push, std_stack.push, owner_ref.init.
  cxx_unfold. by rewrite (move_ctor_nonempty _ _ _ Hh).
Qed.

Lemma push_empty_debug st h s :
  owner_ref._p h = None → owning_stack.push st h Debug s = AssertFail.
Proof.
  intros Hh. unfold owning_stack.push, std_stack.push, owner_ref.init.
  cxx_unfold. by rewrite (move_ctor_empty_debug _ _ Hh).
Qed.

Lemma top_cons e v b s :
  owning_stack.top (owning_stack.Build (e :: v)) b s
  = Ok (shared_ref.from_owner e, s).
Proof. reflexivity. Qed.

Lemma pop_rejected st b s : owning_stack.pop st b s = IllFormed.
Proof. reflexivity. Qed.

(** With [std::move(_v.top())] the body of [pop()] hands the top
    handle out and leaves the rest of the stack. *)
Lemma pop_moving_cons e v b s :
  owner_ref._p e ≠ None →
  owning_stack.pop_moving (owning_stack.Build (e :: v)) b s
  = Ok (owner_ref.Build (owner_ref._p e), owning_stack.Build v, s).
Proof.
  intros He. unfold owning_stack.pop_moving, owning_stack.pop_body, owner_ref.init.
  cxx_simpl. rewrite (move_ctor_nonempty _ _ _ He). reflexivity.
Qed.

(** The round trip the body of [pop()] is written for: it holds once
    [r] is initialised by a move. *)
Lemma push_pop_moving_roundtrip st h b s :
  owner_ref._p h ≠ None →
  ('(st', _) ← owning_stack.push st h; owning_stack.pop_moving st') b s
  = Ok (owner_ref.Build (owner_ref._p h), st, s).
Proof.
  intros Hh. cxx_unfold. rewrite (push_nonempty _ _ _ _ Hh).
  rewrite pop_moving_cons by done. by destruct st.
Qed.
End stack_lemmas.

(** C4. [owning_stack::pop] initialises its result from the lvalue
    [_v.top()], which selects the deleted copy constructor of owner_ref:
    the call is rejected for every stack, so [push] followed by [pop]
    returns no handle (with asserts, pushing an empty handle stops on the
    assert of the move constructor before that). *)
Theorem push_pop_rejected {T : Type} (st : owning_stack.t) (h : owner_ref.t)
    (b : build) (s : state T) :
  owning_stack.pop st b s = IllFormed ∧
  ('(st', _) ← owning_stack.push st h; owning_stack.pop st') b s
  = match b with
    | Debug => if is_null (owner_ref._p h) then AssertFail else IllFormed
    | Release => IllFormed
    end.
Proof.
  split; [reflexivity|]. cxx_unfold.
  destruct (owner_ref._p h) as [a|] eqn:Hh.
  - rewrite push_nonempty by congruence. by destruct b.
  - destruct b; [by rewrite push_empty_debug|reflexivity].
Qed.

(** C5. [top()] on a non-empty stack returns a view of the top handle
    and leaves stack and store alone, and the top is the handle pushed
    last: after pushing [A] and then [B] it views what [B] held.  The
    next step of the scenario, [pop()], is rejected (the defect of C4),
    so the code cannot show [A] again. *)
Theorem top_after_pushes {T : Type} (st : owning_stack.t) (b : build) (s : state T) :
  let A := owner_ref.Build (Some 1%positive) in
  let B := owner_ref.Build (Some 2%positive) in
  (∀ e v, owning_stack.top (owning_stack.Build (e :: v)) b s
          = Ok (shared_ref.Build (owner_ref._p e), s)) ∧
  ('(st1, _) ← owning_stack.push st A;
   '(st2, _) ← owning_stack.push st1 B;
   v ← owning_stack.top st2;
   mret (v, st2)) b s
  = Ok (shared_ref.Build (Some 2%positive),
        owning_stack.Build (B :: A :: owning_stack._v st), s) ∧
  ('(st1, _) ← owning_stack.push st A;
   '(st2, _) ← owning_stack.push st1 B;
   '(_, st3) ← owning_stack.pop st2;
   owning_stack.top st3) b s = IllFormed.
Proof.
  intros A B. split; [intros e v; apply top_cons|]. cxx_unfold.
  rewrite (push_nonempty st A) by done.
  rewrite push_nonempty by done. by split.
Qed.

(** What the scenario of C5 gives with the moving [pop]: [A] is on top
    again. *)
Lemma top_after_pop_moving {T : Type} (st : owning_stack.t) (A B : owner_ref.t)
    (b : build) (s : state T) :
  owner_ref._p A ≠ None → owner_ref._p B ≠ None →
  ('(st1, _) ← owning_stack.push st A;
   '(st2, _) ← owning_stack.push st1 B;
   '(_, st3) ← owning_stack.pop_moving st2;
   owning_stack.top st3) b s
  = Ok (shared_ref.Build (owner_ref._p A), s).
Proof.
  intros HA HB. cxx_unfold.
  rewrite (push_nonempty st A) by done.
  rewrite push_nonempty by done.
  by rewrite pop_moving_cons.
Qed.

Section view_lemmas.
Context {T : Type} `{Payload T}.
Implicit Types (c : const_ref.t) (s : state T) (b : build) (p : path).

Lemma const_ref_path_read_only f c b s p s' :
  const_ref.apply f c b s = Ok (p, s') →
  p = Path ReadOnly (const_ref._p c) ∧ s' = s.
Proof.
  destruct f; cbn; unfold const_ref.arrow, const_ref.star, indirection; cxx_simpl.
  - by intros [= <- <-].
  - destruct (const_ref._p c) as [a|]; [|done].
    destruct (heap s !! a); [|done]. by intros [= <- <-].
Qed.

Lemma call_read_only_rejected p (m : method) b s :
  acc p = ReadOnly → is_const m = false → call p m b s = IllFormed.
Proof. intros Hp Hm. unfold call. by rewrite Hp, Hm. Qed.

Lemma invoke_const p (m : method) b s s' :
  const_correct T → is_const m = true →
  invoke p m b s = Ok (tt, s') → s' = s.
Proof.
  intros Hcc Hm. unfold invoke.
  destruct (addr p) as [a|]; [|done].
  destruct (heap s !! a) as [v|] eqn:Ha; [|done].
  intros [= <-]. rewrite (Hcc m v Hm), (insert_id _ _ _ Ha). by destruct s.
Qed.

Lemma call_read_only_frame p (m : method) b s s' :
  const_correct T → acc p = ReadOnly →
  call p m b s = Ok (tt, s') → s' = s.
Proof.
  intros Hcc Hp. unfold call. rewrite Hp.
  destruct (is_const m) eqn:Hm; [|done]. by apply invoke_const.
Qed.

Lemma const_ref_use_frame f c (m : method) b s s' :
  const_correct T →
  (p ← const_ref.apply f c; call p m) b s = Ok (tt, s') → s' = s.
Proof.
  intros Hcc. cxx_unfold.
  destruct (const_ref.apply f c b s) as [[p s1]| | |] eqn:Hf; try done.
  apply const_ref_path_read_only in Hf as [-> ->].
  by apply call_read_only_frame.
Qed.

Lemma use_all_frame c uses b s s' :
  const_correct T → use_all c uses b s = Ok (tt, s') → s' = s.
Proof.
  intros Hcc. revert s. induction uses as [|[f m] uses IH]; intros s.
  - by intros [= <-].
  - cbn [use_all]. unfold mbind at 1, M_bind at 1.
    destruct ((p ← const_ref.apply f c; call p m) b s) as [[[] s1]| | |] eqn:Hu;
      try done.
    apply const_ref_use_frame in Hu as ->; [|done]. apply IH.
Qed.

(** Calls of const member functions on a live object do return. *)
Lemma const_ref_use_returns f c (m : method) b s a v :
  const_correct T → is_const m = true →
  const_ref._p c = Some a → heap s !! a = Some v →
  (p ← const_ref.apply f c; call p m) b s = Ok (tt, s).
Proof.
  intros Hcc Hm Hc Ha.
  destruct f; cbn; unfold const_ref.arrow, const_ref.star, indirection, call, invoke;
    cxx_simpl; rewrite Hc, ?Ha, Hm; cbn; rewrite ?Ha, (Hcc m v Hm), (insert_id _ _ _ Ha);
    by destruct s.
Qed.
End view_lemmas.

(** C3. Nothing reachable through a const_ref changes the referenced
    object.  Both members of const_ref, from whichever source the view
    was made, give a read-only path and leave the store alone; a call of
    a member function that is not const-qualified through such a path is
    rejected at compile time; and whenever a sequence of uses of a
    const_ref returns, the store is what it was before (calls of const
    member functions on a live object do return). *)
Theorem const_ref_read_only {T : Type} `{Payload T} :
  const_correct T →
  ∀ (c : const_ref.t) (b : build) (s : state T),
    (∀ f p s', const_ref.apply f c b s = Ok (p, s') → acc p = ReadOnly ∧ s' = s) ∧
    (∀ f (m : method),
       is_const m = false →
       (p ← const_ref.apply f c; call p m) b s ≠ Ok (tt, s) ∧
       ∀ p, acc p = ReadOnly → call p m b s = IllFormed) ∧
    (∀ uses s', use_all c uses b s = Ok (tt, s') → s' = s) ∧
    (∀ f (m : method) a v,
       is_const m = true → const_ref._p c = Some a → heap s !! a = Some v →
       (p ← const_ref.apply f c; call p m) b s = Ok (tt, s)).
Proof.
  intros Hcc c b s. split; [|split; [|split]].
  - intros f p s' Hf. by apply const_ref_path_read_only in Hf as [-> ->].
  - intros f m Hm. split; [|intros p Hp; by apply call_read_only_rejected].
    cxx_unfold.
    destruct (const_ref.apply f c b s) as [[p s1]| | |] eqn:Hf; try done.
    apply const_ref_path_read_only in Hf as [-> ->].
    by rewrite call_read_only_rejected.
  - intros uses s'. by apply use_all_frame.
  - intros f m a v. by apply const_ref_use_returns.
Qed.

Lemma Trace_const_correct : const_correct Trace.
Proof. by intros m v _. Qed.

Lemma const_ref_read_only_witness :
  let c := const_ref.from_shared (shared_ref.from_owner (owner_ref.Build (Some 1%positive))) in
  let s : state Trace := State {[1%positive := trace]} [] in
  const_correct Trace ∧
  (∀ f p s', const_ref.apply f c Debug s = Ok (p, s') → acc p = ReadOnly ∧ s' = s) ∧
  (∀ f (m : method),
     is_const m = false →
     (p ← const_ref.apply f c; call p m) Debug s ≠ Ok (tt, s) ∧
     ∀ p, acc p = ReadOnly → call p m Debug s = IllFormed) ∧
  (∀ uses s', use_all c uses Debug s = Ok (tt, s') → s' = s) ∧
  (∀ f (m : method) a v,
     is_const m = true → const_ref._p c = Some a → heap s !! a = Some v →
     (p ← const_ref.apply f c; call p m) Debug s = Ok (tt, s)).
Proof.
  intros c s.
  exact (conj Trace_const_correct
              (const_ref_read_only Trace_const_correct c Debug s)).
Defined.

(** The functions of the example: [look] returns and changes nothing,
    and with the commented-out [p->bar()] it does not compile. *)
Lemma look_frame (p : const_ref.t) (b : build) (s : state Trace) a :
  const_ref._p p = Some a → heap s !! a = Some trace →
  look p b s = Ok (tt, s) ∧ look_bar p b s = IllFormed.
Proof.
  intros Hp Ha.
  unfold look, look_bar, const_ref.arrow, call, invoke. cxx_simpl.
  rewrite Hp, Ha, (insert_id _ _ _ Ha). cbn. by destruct s.
Qed.

Section client_lemmas.
Context {T : Type} `{Payload T}.
Implicit Types (c : stmt T) (f : frame) (s : state T) (b : build)
  (r : owner_ref.t) (x y : string).

Lemma move_ctor_inv r b s r1 r2 s' :
  owner_ref.move_ctor r b s = Ok (r1, r2, s') →
  r1 = owner_ref.Build (owner_ref._p r) ∧ r2 = owner_ref.Build None ∧ s' = s ∧
  (b = Debug → owner_ref._p r ≠ None).
Proof.
  destruct b.
  - destruct (owner_ref._p r) as [a|] eqn:Hr.
    + rewrite move_ctor_nonempty by congruence. rewrite Hr. by intros [= <- <- <-].
    + by rewrite move_ctor_empty_debug.
  - rewrite move_ctor_release. by intros [= <- <- <-].
Qed.

Lemma move_assign_inv dst src b s r1 r2 s' :
  owner_ref.move_assign dst src b s = Ok (r1, r2, s') →
  r1 = owner_ref.Build (owner_ref._p src) ∧ r2 = owner_ref.Build None ∧ s' = s ∧
  (b = Debug → owner_ref._p src ≠ None ∧ owner_ref._p dst = None).
Proof.
  destruct b.
  - rewrite move_assign_debug.
    destruct (owner_ref._p src) as [a|], (owner_ref._p dst) as [a'|]; cbn; try done.
    by intros [= <- <- <-].
  - rewrite move_assign_release. by intros [= <- <- <-].
Qed.

(** What a statement that returns has done. *)
Lemma exec_inv c f b s f' s' :
  exec c f b s = Ok (f', s') →
  match c with
  | Make x args =>
      vars f !! x = None ∧
      f' = Frame (<[x:=owner_ref.Build (Some (fresh_loc s))]> (vars f))
                 (moved f) (stack f) ∧
      s' = State (<[fresh_loc s:=construct args]> (heap s)) (deleted s)
  | MoveCtor x y =>
      vars f !! x = None ∧
      ∃ ry, vars f !! y = Some ry ∧
        (b = Debug → owner_ref._p ry ≠ None) ∧
        f' = Frame (<[y:=owner_ref.Build None]>
                      (<[x:=owner_ref.Build (owner_ref._p ry)]> (vars f)))
                   (moved f ∪ {[y]}) (stack f) ∧
        s' = s
  | MoveAssign x y =>
      ∃ rx ry, vars f !! x = Some rx ∧ vars f !! y = Some ry ∧
        (b = Debug → owner_ref._p ry ≠ None ∧ owner_ref._p rx = None) ∧
        f' = Frame (<[y:=owner_ref.Build None]>
                      (<[x:=owner_ref.Build (owner_ref._p ry)]> (vars f)))
                   ((moved f ∖ {[x]}) ∪ {[y]}) (stack f) ∧
        s' = s
  | Push y =>
      ∃ ry, vars f !! y = Some ry ∧
        (b = Debug → owner_ref._p ry ≠ None) ∧
        f' = Frame (<[y:=owner_ref.Build None]> (vars f)) (moved f ∪ {[y]})
                   (owning_stack.Build
                      (owner_ref.Build (owner_ref._p ry)
                         :: owning_stack._v (stack f))) ∧
        s' = s
  | Top => f' = f ∧ s' = s
  | Leave x =>
      ∃ rx, vars f !! x = Some rx ∧
        f' = Frame (delete x (vars f)) (moved f ∖ {[x]}) (stack f) ∧
        owner_ref.dtor rx b s = Ok (tt, s')
  | _ => False
  end.
Proof.
  intros Hexec.
  destruct c as [x args|x y|x y|y|x| |x|x|x y|x y|x p];
    unfold exec, declare, use in Hexec; try done.
  - destruct (vars f !! x) eqn:Hx; [done|].
    cxx_unfold. rewrite make_owner_ref_eq in Hexec. by injection Hexec as <- <-.
  - destruct (vars f !! x) eqn:Hx; [done|].
    destruct (vars f !! y) as [ry|] eqn:Hy; [|done].
    unfold owner_ref.init in Hexec. cxx_unfold.
    destruct (owner_ref.move_ctor ry b s) as [[[r1 r2] s1]| | |] eqn:Hmv; try done.
    injection Hexec as <- <-.
    apply move_ctor_inv in Hmv as (-> & -> & -> & Hd). eauto 10.
  - destruct (vars f !! x) as [rx|] eqn:Hx; [|done].
    destruct (vars f !! y) as [ry|] eqn:Hy; [|done].
    cxx_unfold.
    destruct (owner_ref.move_assign rx ry b s) as [[[r1 r2] s1]| | |] eqn:Hmv;
      try done.
    injection Hexec as <- <-.
    apply move_assign_inv in Hmv as (-> & -> & -> & Hd). eauto 10.
  - destruct (vars f !! y) as [ry|] eqn:Hy; [|done].
    unfold owning_stack.push, std_stack.push, owner_ref.init in Hexec. cxx_unfold.
    destruct (owner_ref.move_ctor ry b s) as [[[r1 r2] s1]| | |] eqn:Hmv; try done.
    injection Hexec as <- <-.
    apply move_ctor_inv in Hmv as (-> & -> & -> & Hd). eauto 10.
  - destruct (vars f !! x); [done|]. cxx_unfold.
    by rewrite pop_rejected in Hexec.
  - unfold owning_stack.top, std_stack.top in Hexec. cxx_unfold.
    destruct (owning_stack._v (stack f)); [done|]. by injection Hexec as <- <-.
  - destruct (vars f !! x) as [rx|] eqn:Hx; [|done].
    cxx_unfold. destruct (owner_ref.dtor rx b s) as [[[] s1]| | |] eqn:Hd; try done.
    injection Hexec as <- <-. eauto 10.
  - destruct (vars f !! x); [done|]. by destruct (vars f !! y).
Qed.

Lemma dtor_inv r b s s' :
  owner_ref.dtor r b s = Ok (tt, s') →
  (owner_ref._p r = None ∧ s' = s) ∨
  (∃ a v, owner_ref._p r = Some a ∧ heap s !! a = Some v ∧
          s' = State (delete a (heap s)) (a :: deleted s)).
Proof.
  unfold owner_ref.dtor, operator_delete.
  destruct (owner_ref._p r) as [a|]; cbn.
  - destruct (heap s !! a) as [v|] eqn:Ha; [|done]. intros [= <-]. eauto 10.
  - intros [= <-]. by left.
Qed.

(** One statement keeps the invariant, provided asserts are on or the
    statement does not move from an empty handle. *)
Lemma exec_preserves c f b s f' s' :
  b = Debug ∨ disciplined c f →
  handle_inv f →
  exec c f b s = Ok (f', s') →
  handle_inv f'.
Proof.
  intros Hg (Hv & Hm & Hst) Hexec. apply exec_inv in Hexec.
  assert (∀ y ry, source c = Some y → vars f !! y = Some ry →
            (b = Debug → owner_ref._p ry ≠ None) → owner_ref._p ry ≠ None) as Hsrc.
  { intros y ry Hs Hy Hd.
    destruct Hg as [->|Hdis]; [by apply Hd|by apply (Hdis y ry)]. }
  assert (∀ z, z ∈ moved f → vars f !! z ≠ None) as Hdecl.
  { intros z [r Hz]%Hm%elem_of_dom. congruence. }
  destruct c as [x args|x y|x y|y|x| |x|x|x y|x y|x p]; try done.
  - (* Make *)
    destruct Hexec as (Hx & -> & ->).
    split; [|split]; cbn; [|set_solver|done].
    intros z r Hz. inv_lookup; cbn.
    + split; [done|]. intros Hin. by apply Hdecl in Hin.
    + by apply Hv.
  - (* MoveCtor *)
    destruct Hexec as (Hx & ry & Hy & Hd & -> & ->).
    pose proof (Hsrc y ry eq_refl Hy (λ Hb, Hd Hb)) as Hry.
    split; [|split]; cbn; [|set_solver|done].
    intros z r Hz. inv_lookup; cbn.
    + split; [set_solver|done].
    + split; [done|]. intros [Hin|Hin]%elem_of_union; [|set_solver].
      by apply Hdecl in Hin.
    + rewrite (Hv z r Hz). set_solver.
  - (* MoveAssign *)
    destruct Hexec as (rx & ry & Hx & Hy & Hd & -> & ->).
    pose proof (Hsrc y ry eq_refl Hy (λ Hb, proj1 (Hd Hb))) as Hry.
    split; [|split]; cbn; [|set_solver|done].
    intros z r Hz. inv_lookup; cbn.
    + split; [set_solver|done].
    + split; [done|]. set_solver.
    + rewrite (Hv z r Hz). set_solver.
  - (* Push *)
    destruct Hexec as (ry & Hy & Hd & -> & ->).
    pose proof (Hsrc y ry eq_refl Hy (λ Hb, Hd Hb)) as Hry.
    split; [|split]; cbn; [|set_solver|by constructor].
    intros z r Hz. inv_lookup; cbn.
    + split; [set_solver|done].
    + rewrite (Hv z r Hz). set_solver.
  - (* Top *)
    by destruct Hexec as (-> & _).
  - (* Leave *)
    destruct Hexec as (rx & Hx & -> & _).
    split; [|split]; cbn; [|set_solver|done].
    intros z r Hz. inv_lookup. rewrite (Hv z r Hz). set_solver.
Qed.

(** Whatever is in the moved-from state after a statement was declared
    before it. *)
Lemma exec_moved_declared c f b s f' s' :
  handle_inv f →
  exec c f b s = Ok (f', s') →
  moved f' ⊆ dom (vars f).
Proof.
  intros (Hv & Hm & Hst) Hexec. apply exec_inv in Hexec.
  destruct c as [x args|x y|x y|y|x| |x|x|x y|x y|x p]; try done.
  - by destruct Hexec as (_ & -> & _).
  - destruct Hexec as (_ & ry & Hy%elem_of_dom_2 & _ & -> & _). cbn. set_solver.
  - destruct Hexec as (rx & ry & _ & Hy%elem_of_dom_2 & _ & -> & _). cbn. set_solver.
  - destruct Hexec as (ry & Hy%elem_of_dom_2 & _ & -> & _). cbn. set_solver.
  - by destruct Hexec as (-> & _).
  - destruct Hexec as (rx & _ & -> & _). cbn. set_solver.
Qed.

(** A handle that a statement brings into scope starts non-empty. *)
Lemma exec_new_handle c f b s f' s' x r :
  b = Debug ∨ disciplined c f →
  handle_inv f →
  exec c f b s = Ok (f', s') →
  vars f !! x = None → vars f' !! x = Some r →
  owner_ref._p r ≠ None.
Proof.
  intros Hg Hinv Hexec Hx Hx' Hr.
  pose proof (exec_moved_declared _ _ _ _ _ _ Hinv Hexec) as Hsub.
  destruct (exec_preserves _ _ _ _ _ _ Hg Hinv Hexec) as (Hv' & _ & _).
  apply (Hv' x r Hx'), Hsub, elem_of_dom in Hr as [? ?]. congruence.
Qed.

(** [make_owner_ref] is the statement that brings a fresh address. *)
Lemma exec_make x (args : Args) f b s f' s' :
  exec (Make x args) f b s = Ok (f', s') →
  vars f' !! x = Some (owner_ref.Build (Some (fresh_loc s))) ∧
  heap s !! fresh_loc s = None ∧ fresh_loc s ∉ deleted s.
Proof.
  unfold exec, declare. destruct (vars f !! x); [done|].
  cxx_unfold. rewrite make_owner_ref_eq. intros [= <- <-]. cbn.
  split; [apply lookup_insert_eq|].
  split; [apply fresh_loc_not_live|apply fresh_loc_not_deleted].
Qed.

Lemma empty_frame_inv : handle_inv empty_frame.
Proof. split; [|split]; [done|set_solver|constructor]. Qed.

Lemma run_preserves prog f b s f' s' :
  b = Debug ∨ well_behaved prog f b s →
  handle_inv f →
  run prog f b s = Ok (f', s') →
  handle_inv f'.
Proof.
  revert f s. induction prog as [|c prog IH]; intros f s Hg Hinv.
  - by intros [= <- <-].
  - cbn [run]. cxx_unfold.
    destruct (exec c f b s) as [[f1 s1]| | |] eqn:Hexec; try done.
    apply IH.
    + destruct Hg as [|[_ Hwb]]; [by left|right]. by rewrite Hexec in Hwb.
    + eapply exec_preserves; [|done|done].
      destruct Hg as [|[Hd _]]; [by left|by right].
Qed.
End client_lemmas.

(** C10, as stated, fails without asserts: moving from a moved-from
    handle then returns, and the handle it creates starts empty although
    nothing was ever moved from it. *)
Lemma empty_handle_never_moved_from :
  let prog : list (stmt Trace) :=
    [Make "a" (tt : Args); MoveCtor "b" "a"; MoveCtor "c" "a"] in
  (∃ f s, run prog empty_frame Release empty_state = Ok (f, s) ∧
          vars f !! "c" = Some (owner_ref.Build None) ∧ "c" ∉ moved f) ∧
  ¬ ∀ (b : build) (prog : list (stmt Trace)) f s,
      run prog empty_frame b empty_state = Ok (f, s) → handle_inv f.
Proof.
  intros prog.
  assert (∃ f s, run prog empty_frame Release empty_state = Ok (f, s) ∧
                 vars f !! "c" = Some (owner_ref.Build None) ∧ "c" ∉ moved f) as Hrun.
  { eexists _, _. split; [reflexivity|]. cbn. split; [done|set_solver]. }
  split; [done|]. intros Hall.
  destruct Hrun as (f & s & Hrun & Hc & Hnot).
  destruct (Hall _ _ _ _ Hrun) as (Hv & _). by apply Hnot, (Hv "c" _ Hc).
Qed.

(** C10, amended. With asserts, or in any run that never moves from an
    empty handle, every state a client program reaches from an empty
    scope satisfies [handle_inv]: a handle is empty exactly when it is
    in the moved-from state, and the stack stores no empty handle.  In
    such a state every handle that the next statement brings into scope
    starts non-empty, and the one made by [make_owner_ref] holds a
    non-null address at which no object was live.  Default construction,
    copy construction, copy assignment and construction from a raw
    pointer are rejected at compile time. *)
Theorem handle_invariant {T : Type} `{Payload T} (b : build)
    (prog : list (stmt T)) (f : frame) (s s' : state T) :
  b = Debug ∨ well_behaved prog empty_frame b s →
  run prog empty_frame b s = Ok (f, s') →
  handle_inv f ∧
  (∀ c f1 s1 x r,
     b = Debug ∨ disciplined c f →
     exec c f b s' = Ok (f1, s1) →
     vars f !! x = None → vars f1 !! x = Some r →
     owner_ref._p r ≠ None) ∧
  (∀ x (args : Args) f1 s1,
     exec (Make x args) f b s' = Ok (f1, s1) →
     vars f1 !! x = Some (owner_ref.Build (Some (fresh_loc s'))) ∧
     heap s' !! fresh_loc s' = None) ∧
  (∀ x y p,
     exec (DefaultCtor x) f b s' = IllFormed ∧
     exec (CopyCtor x y) f b s' = IllFormed ∧
     exec (CopyAssign x y) f b s' = IllFormed ∧
     exec (RawCtor x p) f b s' = IllFormed).
Proof.
  intros Hg Hrun.
  assert (handle_inv f) as Hinv
    by (eapply run_preserves; [done|apply empty_frame_inv|done]).
  split; [done|]. split; [|split].
  - intros c f1 s1 x r Hc Hexec. by eapply exec_new_handle.
  - intros x args f1 s1 Hexec.
    by destruct (exec_make _ _ _ _ _ _ _ Hexec) as (? & ? & _).
  - intros x y p. repeat split.
    unfold exec, declare, use.
    destruct (vars f !! x); [done|]. by destruct (vars f !! y).
Qed.

Lemma handle_invariant_witness :
  let prog : list (stmt Trace) :=
    [Make "x" (tt : Args); MoveCtor "y" "x"; Push "y"; Top;
     Make "z" (tt : Args); MoveAssign "x" "z"; Leave "z"] in
  ∃ f s',
    (Debug = Debug ∨ well_behaved prog empty_frame Debug empty_state) ∧
    run prog empty_frame Debug empty_state = Ok (f, s') ∧
    handle_inv f ∧
    (∀ c f1 s1 x r,
       Debug = Debug ∨ disciplined c f →
       exec c f Debug s' = Ok (f1, s1) →
       vars f !! x = None → vars f1 !! x = Some r →
       owner_ref._p r ≠ None) ∧
    (∀ x (args : Args) f1 s1,
       exec (Make x args) f Debug s' = Ok (f1, s1) →
       vars f1 !! x = Some (owner_ref.Build (Some (fresh_loc s'))) ∧
       heap s' !! fresh_loc s' = None) ∧
    (∀ x y p,
       exec (DefaultCtor x) f Debug s' = IllFormed ∧
       exec (CopyCtor x y) f Debug s' = IllFormed ∧
       exec (CopyAssign x y) f Debug s' = IllFormed ∧
       exec (RawCtor x p) f Debug s' = IllFormed).
Proof.
  intros prog. eexists _, _.
  split; [left; reflexivity|].
  split; [vm_compute; reflexivity|].
  apply (handle_invariant Debug prog _ empty_state _ (or_introl eq_refl)).
  vm_compute; reflexivity.
Defined.

Section ownership_lemmas.
Context {T : Type} `{Payload T}.
Implicit Types (c : stmt T) (f : frame) (s : state T) (b : build)
  (r : owner_ref.t) (x y : string).

(** [own_inv] is kept by every statement, in every build. *)
Lemma exec_own c f b s f' s' :
  own_inv f s → exec c f b s = Ok (f', s') → own_inv f' s'.
Proof.
  intros (L1 & L2 & U1 & U3) Hexec. apply exec_inv in Hexec.
  destruct c as [x args|x y|x y|y|x| |x|x|x y|x y|x p]; try done.
  - destruct Hexec as (Hx & -> & ->).
    pose proof (fresh_loc_not_live s) as Hfresh.
    assert (∀ a, is_Some (heap s !! a) → a ≠ fresh_loc s) as Hne
      by (intros a [v Ha] ->; congruence).
    repeat split; cbn; intros; inv_lookup; own_solve.
    + exfalso. eapply Hne; [eapply L1; eauto|done].
    + exfalso. eapply Hne; [eapply L1; eauto|done].
    + intros Heq. eapply Hne; [eapply L2; eauto|done].
  - destruct Hexec as (Hx & ry & Hy & _ & -> & ->).
    repeat split; cbn; intros; inv_lookup; own_solve.
  - destruct Hexec as (rx & ry & Hx & Hy & _ & -> & ->).
    repeat split; cbn; intros; inv_lookup; own_solve.
  - destruct Hexec as (ry & Hy & _ & -> & ->).
    repeat split; cbn; intros; inv_lookup; own_solve.
  - by destruct Hexec as (-> & ->).
  - destruct Hexec as (rx & Hx & -> & Hd).
    apply dtor_inv in Hd as [[Hrx ->]|(a & v & Hrx & Ha & ->)].
    + repeat split; cbn; intros; inv_lookup; own_solve.
    + repeat split; cbn; intros; inv_lookup; own_solve.
      * rewrite lookup_delete_ne; [eauto|]. intros <-. eauto.
      * rewrite lookup_delete_ne; [eauto|]. intros <-. by eapply U3.
Qed.

Lemma exec_store c f b s f' s' :
  store_inv s → exec c f b s = Ok (f', s') → store_inv s'.
Proof.
  intros (Hnd & Hgone) Hexec. apply exec_inv in Hexec.
  destruct c as [x args|x y|x y|y|x| |x|x|x y|x y|x p]; try done.
  - destruct Hexec as (_ & _ & ->). split; [done|]. cbn. intros a Ha.
    rewrite lookup_insert_ne; [by apply Hgone|].
    intros <-. by apply (fresh_loc_not_deleted s).
  - by destruct Hexec as (_ & ry & _ & _ & _ & ->).
  - by destruct Hexec as (rx & ry & _ & _ & _ & _ & ->).
  - by destruct Hexec as (ry & _ & _ & _ & ->).
  - by destruct Hexec as (_ & ->).
  - destruct Hexec as (rx & _ & _ & Hd).
    apply dtor_inv in Hd as [[_ ->]|(a & v & _ & Ha & ->)]; [done|].
    split; cbn.
    + constructor; [|done]. intros Hin. apply Hgone in Hin. congruence.
    + intros a' [->|Hin]%elem_of_cons; [apply lookup_delete_eq|].
      apply lookup_delete_None. right. by apply Hgone.
Qed.

(** With asserts no statement drops a live object. *)
Lemma exec_no_leak c f s f' s' :
  no_leak f s → exec c f Debug s = Ok (f', s') → no_leak f' s'.
Proof.
  intros Hown Hexec. apply exec_inv in Hexec.
  destruct c as [x args|x y|x y|y|x| |x|x|x y|x y|x p]; try done.
  - destruct Hexec as (Hx & -> & ->). intros a. cbn.
    rewrite lookup_insert. case_decide as Ha.
    + subst a. intros _. left. exists x, (owner_ref.Build (Some (fresh_loc s))).
      by rewrite lookup_insert_eq.
    + intros [(z & r & Hz & Hr)|?]%Hown; [left|by right].
      exists z, r. rewrite lookup_insert_ne; [done|congruence].
  - destruct Hexec as (Hx & ry & Hy & _ & -> & ->). intros a. cbn.
    intros [(z & r & Hz & Hr)|?]%Hown; [left|by right].
    assert (x ≠ y) by congruence.
    destruct (decide (z = y)) as [->|Hzy].
    + exists x, (owner_ref.Build (owner_ref._p ry)).
      rewrite lookup_insert_ne, lookup_insert_eq by done. split; [done|].
      cbn. congruence.
    + exists z, r. rewrite !lookup_insert_ne; [done|congruence|done].
  - destruct Hexec as (rx & ry & Hx & Hy & Hd & -> & ->).
    destruct (Hd eq_refl) as [Hry Hrx]. intros a. cbn.
    intros [(z & r & Hz & Hr)|?]%Hown; [left|by right].
    assert (x ≠ y) by (intros ->; congruence).
    destruct (decide (z = y)) as [->|Hzy].
    + exists x, (owner_ref.Build (owner_ref._p ry)).
      rewrite lookup_insert_ne, lookup_insert_eq by done. split; [done|].
      cbn. congruence.
    + exists z, r. rewrite !lookup_insert_ne; [done|congruence|done].
  - destruct Hexec as (ry & Hy & _ & -> & ->). intros a. cbn.
    intros [(z & r & Hz & Hr)|(e & He & Hr)]%Hown.
    + destruct (decide (z = y)) as [->|Hzy].
      * right. exists (owner_ref.Build (owner_ref._p ry)).
        split; [apply elem_of_cons; by left|]. cbn. congruence.
      * left. exists z, r. by rewrite lookup_insert_ne.
    + right. exists e. split; [apply elem_of_cons; by right|done].
  - by destruct Hexec as (-> & ->).
  - destruct Hexec as (rx & Hx & -> & Hd). intros a. cbn.
    apply dtor_inv in Hd as [[Hrx ->]|(a0 & v & Hrx & Ha0 & ->)]; cbn.
    + intros [(z & r & Hz & Hr)|?]%Hown; [left|by right].
      exists z, r. rewrite lookup_delete_ne; [done|]. intros ->. congruence.
    + rewrite lookup_delete. case_decide as Ha; [by intros [? ?]|].
      intros [(z & r & Hz & Hr)|?]%Hown; [left|by right].
      exists z, r. rewrite lookup_delete_ne; [done|]. intros ->. congruence.
Qed.

Lemma run_safe prog f b s f' s' :
  run prog f b s = Ok (f', s') →
  (own_inv f s → own_inv f' s') ∧
  (store_inv s → store_inv s') ∧
  (b = Debug → no_leak f s → no_leak f' s').
Proof.
  revert f s. induction prog as [|c prog IH]; intros f s.
  - by intros [= <- <-].
  - cbn [run]. cxx_unfold.
    destruct (exec c f b s) as [[f1 s1]| | |] eqn:Hexec; try done.
    intros (IH1 & IH2 & IH3)%IH. split; [|split].
    + intros Hown. by eapply IH1, exec_own.
    + intros Hst. by eapply IH2, exec_store.
    + intros -> Hnl. by eapply IH3, exec_no_leak.
Qed.
End ownership_lemmas.

(** * Views, the stack and client code beyond the claims *)

Section view_properties.
Context {T : Type} `{Payload T}.
Implicit Types (r : owner_ref.t) (s : state T) (b : build).

(** X1. Views alias the owner's object.  A member function called
    through a shared_ref made from a handle runs on the handle's object,
    whether const-qualified or not, and the handle and every const_ref
    made from the handle or from the shared_ref read the changed object
    afterwards. *)
Theorem shared_write_visible r (m : method) b s a v :
  owner_ref._p r = Some a → heap s !! a = Some v →
  let view := shared_ref.from_owner r in
  let s' := State (<[a:=body m v]> (heap s)) (deleted s) in
  (q ← shared_ref.arrow view; call q m) b s = Ok (tt, s') ∧
  deref r b s' = Ok (body m v, s') ∧
  (q ← shared_ref.star view; load q) b s' = Ok (body m v, s') ∧
  (q ← const_ref.star (const_ref.from_owner r); load q) b s' = Ok (body m v, s') ∧
  (q ← const_ref.arrow (const_ref.from_shared view); load q) b s'
    = Ok (body m v, s').
Proof.
  intros Hr Ha view s'.
  assert (heap s' !! a = Some (body m v)) as Ha' by apply lookup_insert_eq.
  split; [|split; [|split; [|split]]].
  - unfold shared_ref.arrow, call, invoke. cxx_simpl. rewrite Hr, Ha.
    by destruct (is_const m).
  - exact (deref_live r b s' a (body m v) Hr Ha').
  - unfold shared_ref.star, indirection, load. cxx_simpl.
    by repeat (rewrite ?Hr, ?Ha'; cbn).
  - unfold const_ref.star, indirection, load. cxx_simpl.
    by repeat (rewrite ?Hr, ?Ha'; cbn).
  - unfold const_ref.arrow, load. cxx_simpl. by rewrite Hr, Ha'.
Qed.

(** X2. A view does not keep its object alive.  Once the owner is
    destroyed, a shared_ref or const_ref made from it earlier dangles:
    [operator*] and every call through [operator->] are undefined, in
    every build, and no assert of the program notices. *)
Theorem view_dangles_after_dtor r (m : method) b s a v :
  owner_ref._p r = Some a → heap s !! a = Some v →
  let view := shared_ref.from_owner r in
  let cview := const_ref.from_owner r in
  ∃ s', owner_ref.dtor r b s = Ok (tt, s') ∧
        shared_ref.star view b s' = Undefined ∧
        const_ref.star cview b s' = Undefined ∧
        (q ← shared_ref.arrow view; call q m) b s' = Undefined ∧
        (q ← const_ref.arrow cview; load q) b s' = Undefined.
Proof.
  intros Hr Ha view cview. eexists. split; [by eapply dtor_nonempty|].
  assert (delete a (heap s) !! a = None) as Hgone by apply lookup_delete_eq.
  split; [|split; [|split]].
  - unfold shared_ref.star, indirection. cbn. by rewrite Hr, Hgone.
  - unfold const_ref.star, indirection. cbn. by rewrite Hr, Hgone.
  - unfold shared_ref.arrow, call, invoke. cxx_simpl. rewrite Hr, Hgone.
    by destruct (is_const m).
  - unfold const_ref.arrow, load. cxx_simpl. by rewrite Hr, Hgone.
Qed.

(** X3. Views and moves.  A view made before its owner is moved still
    reads the object after the move, because the object stays where it
    is; a view made from the moved-from handle is null, its construction
    is not checked in any build, and dereferencing it is undefined. *)
Theorem view_across_move r b s a v :
  owner_ref._p r = Some a → heap s !! a = Some v →
  let view := shared_ref.from_owner r in
  ∃ r' husk,
    owner_ref.move_ctor r b s = Ok (r', husk, s) ∧
    (q ← shared_ref.star view; load q) b s = Ok (v, s) ∧
    deref r' b s = Ok (v, s) ∧
    shared_ref._p (shared_ref.from_owner husk) = None ∧
    const_ref._p (const_ref.from_owner husk) = None ∧
    shared_ref.star (shared_ref.from_owner husk) b s = Undefined ∧
    const_ref.star (const_ref.from_owner husk) b s = Undefined.
Proof.
  intros Hr Ha view. eexists _, _.
  split; [apply move_ctor_nonempty; congruence|].
  split; [|split; [by apply (deref_live _ b s a v)|by repeat split]].
  unfold shared_ref.star, indirection, load. cxx_simpl.
  by repeat (rewrite ?Hr, ?Ha; cbn).
Qed.
End view_properties.

Lemma shared_write_visible_witness :
  let r := owner_ref.Build (Some 1%positive) in
  let s : state Trace := State {[1%positive := trace]} [] in
  let s' := State (<[1%positive:=body (T:=Trace) bar trace]> (heap s)) (deleted s) in
  (q ← shared_ref.arrow (shared_ref.from_owner r); call (T:=Trace) q bar) Debug s
    = Ok (tt, s') ∧
  deref r Debug s' = Ok (body (T:=Trace) bar trace, s').
Proof.
  intros r s s'.
  pose proof (shared_write_visible (T:=Trace) r bar Debug s 1%positive trace
                eq_refl eq_refl) as (H1 & H2 & _).
  exact (conj H1 H2).
Defined.

Lemma view_dangles_after_dtor_witness :
  let r := owner_ref.Build (Some 1%positive) in
  let s : state Trace := State {[1%positive := trace]} [] in
  ∃ s', owner_ref.dtor r Debug s = Ok (tt, s') ∧
        shared_ref.star (shared_ref.from_owner r) Debug s' = Undefined ∧
        const_ref.star (const_ref.from_owner r) Debug s' = Undefined ∧
        (q ← shared_ref.arrow (shared_ref.from_owner r); call (T:=Trace) q foo) Debug s'
          = Undefined ∧
        (q ← const_ref.arrow (const_ref.from_owner r); load q) Debug s' = Undefined.
Proof.
  intros r s.
  exact (view_dangles_after_dtor (T:=Trace) r foo Debug s 1%positive trace
           eq_refl eq_refl).
Defined.

Lemma view_across_move_witness :
  let r := owner_ref.Build (Some 1%positive) in
  let s : state Trace := State {[1%positive := trace]} [] in
  ∃ r' husk,
    owner_ref.move_ctor r Release s = Ok (r', husk, s) ∧
    (q ← shared_ref.star (shared_ref.from_owner r); load q) Release s = Ok (trace, s) ∧
    deref r' Release s = Ok (trace, s) ∧
    shared_ref._p (shared_ref.from_owner husk) = None ∧
    const_ref._p (const_ref.from_owner husk) = None ∧
    shared_ref.star (shared_ref.from_owner husk) Release s = Undefined ∧
    const_ref.star (const_ref.from_owner husk) Release s = Undefined.
Proof.
  intros r s.
  exact (view_across_move (T:=Trace) r Release s 1%positive trace eq_refl eq_refl).
Defined.

(** X4. [consume] does not take the object over: it only lends it to
    [modify].  For a handle to a live Trace it returns with the store as
    it was, so the object is still alive afterwards and is deleted only
    by the destructor of the caller's handle; for an empty handle it is
    undefined, in every build. *)
Theorem consume_keeps_object (p : owner_ref.t) (b : build) (s : state Trace) a :
  owner_ref._p p = Some a → heap s !! a = Some trace →
  consume p b s = Ok (tt, s) ∧
  (consume p;; deref p) b s = Ok (trace, s) ∧
  (consume p;; owner_ref.dtor p) b s
    = Ok (tt, State (delete a (heap s)) (a :: deleted s)) ∧
  ∀ husk, owner_ref._p husk = None → consume husk b s = Undefined.
Proof.
  intros Hp Ha.
  assert (consume p b s = Ok (tt, s)) as Hc.
  { unfold consume, modify, look, shared_ref.arrow, const_ref.arrow, call, invoke.
    cxx_simpl. rewrite Hp, Ha. cbn. rewrite (insert_id _ _ _ Ha).
    cbn. rewrite Ha, (insert_id _ _ _ Ha). by destruct s. }
  split; [done|]. split; [|split].
  - unfold mbind, M_bind. rewrite Hc. by apply (deref_live p b s a trace).
  - unfold mbind, M_bind. rewrite Hc. by apply (dtor_nonempty p b s a trace).
  - intros husk Hh.
    unfold consume, modify, shared_ref.arrow, call, invoke. cxx_simpl. by rewrite Hh.
Qed.

Lemma consume_keeps_object_witness :
  let p := owner_ref.Build (Some 1%positive) in
  let s : state Trace := State {[1%positive := trace]} [] in
  consume p Debug s = Ok (tt, s) ∧
  (consume p;; deref p) Debug s = Ok (trace, s) ∧
  (consume p;; owner_ref.dtor p) Debug s
    = Ok (tt, State (delete 1%positive (heap s)) (1%positive :: deleted s)) ∧
  ∀ husk, owner_ref._p husk = None → consume husk Debug s = Undefined.
Proof.
  intros p s. exact (consume_keeps_object p Debug s 1%positive eq_refl eq_refl).
Defined.

Section stack_properties.
Context {T : Type}.
Implicit Types (st : owning_stack.t) (h : owner_ref.t) (s : state T) (b : build).

(** X5. [push] takes the handle over.  Pushing a non-empty handle
    returns in every build, leaves the store alone, makes the stack one
    element taller with the pushed address on top, and leaves the
    caller's handle empty.  Pushing an empty handle stops on the assert
    of the move constructor when asserts are on; without asserts it
    stores an empty handle, and [top()] then returns a null view. *)
Theorem push_takes_over st h b s :
  (∀ a, owner_ref._p h = Some a →
     ∃ st', owning_stack.push st h b s = Ok (st', owner_ref.Build None, s) ∧
            length (owning_stack._v st') = S (length (owning_stack._v st)) ∧
            tail (owning_stack._v st') = owning_stack._v st ∧
            owning_stack.top st' b s = Ok (shared_ref.Build (Some a), s)) ∧
  (owner_ref._p h = None →
     owning_stack.push st h Debug s = AssertFail ∧
     ∃ st', owning_stack.push st h Release s = Ok (st', owner_ref.Build None, s) ∧
            owning_stack.top st' Release s = Ok (shared_ref.Build None, s)).
Proof.
  split.
  - intros a Ha. eexists. split; [apply push_nonempty; congruence|].
    cbn. by rewrite Ha.
  - intros Hh. split; [by apply push_empty_debug|].
    eexists. split; [reflexivity|]. cbn. by rewrite Hh.
Qed.

Lemma push_all_nonempty st (hs : list owner_ref.t) b s :
  Forall (λ h, owner_ref._p h ≠ None) hs →
  push_all st hs b s
  = Ok (owning_stack.Build
          (reverse ((λ h, owner_ref.Build (owner_ref._p h)) <$> hs)
             ++ owning_stack._v st),
        replicate (length hs) (owner_ref.Build None), s).
Proof.
  revert st. induction hs as [|h hs IH]; intros st Hne.
  - by destruct st.
  - apply Forall_cons in Hne as [Hh Hne].
    cbn [push_all]. cxx_unfold. rewrite push_nonempty by done.
    rewrite IH by done. cbn -[reverse].
    by rewrite reverse_cons, <- app_assoc.
Qed.

(** X6. Pushes compose last-in-first-out.  Pushing non-empty handles one
    after the other returns in every build with the store untouched; the
    stack grows by their number, holds their addresses with the last
    pushed on top above the old elements, and every pushed handle is
    left empty. *)
Theorem push_all_lifo st (hs : list owner_ref.t) b s :
  Forall (λ h, owner_ref._p h ≠ None) hs →
  ∃ st' hs',
    push_all st hs b s = Ok (st', hs', s) ∧
    owner_ref._p <$> owning_stack._v st'
      = reverse (owner_ref._p <$> hs) ++ (owner_ref._p <$> owning_stack._v st) ∧
    length (owning_stack._v st') = length hs + length (owning_stack._v st) ∧
    length hs' = length hs ∧
    Forall (λ h, owner_ref._p h = None) hs'.
Proof.
  intros Hne. eexists _, _. split; [by apply push_all_nonempty|].
  cbn -[reverse]. split; [|split; [|split]].
  - by rewrite fmap_app, fmap_reverse, <- list_fmap_compose.
  - by rewrite length_app, length_reverse, length_fmap.
  - apply length_replicate.
  - by apply Forall_replicate.
Qed.
End stack_properties.

Lemma push_takes_over_witness :
  let st := owning_stack.Build [owner_ref.Build (Some 1%positive)] in
  let s : state Trace := State {[1%positive := trace; 2%positive := trace]} [] in
  (∃ st', owning_stack.push st (owner_ref.Build (Some 2%positive)) Debug s
            = Ok (st', owner_ref.Build None, s) ∧
          length (owning_stack._v st') = S (length (owning_stack._v st)) ∧
          tail (owning_stack._v st') = owning_stack._v st ∧
          owning_stack.top st' Debug s = Ok (shared_ref.Build (Some 2%positive), s)) ∧
  owning_stack.push st (owner_ref.Build None) Debug s = AssertFail.
Proof.
  intros st s.
  exact (conj
    (proj1 (push_takes_over st (owner_ref.Build (Some 2%positive)) Debug s)
       2%positive eq_refl)
    (proj1 (proj2 (push_takes_over st (owner_ref.Build None) Debug s) eq_refl))).
Defined.

Lemma push_all_lifo_witness :
  let hs := [owner_ref.Build (Some 1%positive); owner_ref.Build (Some 2%positive)] in
  let st := owning_stack.Build [owner_ref.Build (Some 3%positive)] in
  let s : state Trace := empty_state in
  Forall (λ h, owner_ref._p h ≠ None) hs ∧
  ∃ st' hs',
    push_all st hs Debug s = Ok (st', hs', s) ∧
    owner_ref._p <$> owning_stack._v st'
      = reverse (owner_ref._p <$> hs) ++ (owner_ref._p <$> owning_stack._v st) ∧
    length (owning_stack._v st') = length hs + length (owning_stack._v st) ∧
    length hs' = length hs ∧
    Forall (λ h, owner_ref._p h = None) hs'.
Proof.
  intros hs st s.
  assert (Forall (λ h, owner_ref._p h ≠ None) hs) as Hne
    by (repeat constructor; discriminate).
  exact (conj Hne (push_all_lifo st hs Debug s Hne)).
Defined.

Section destructor_properties.
Context {T : Type}.
Implicit Types (st : owning_stack.t) (s : state T) (b : build).

Lemma dtor_all_spec (l : list owner_ref.t) b s :
  NoDup (omap owner_ref._p l) →
  (∀ a, a ∈ omap owner_ref._p l → is_Some (heap s !! a)) →
  ∃ s', dtor_all l b s = Ok (tt, s') ∧
        deleted s' = reverse (omap owner_ref._p l) ++ deleted s ∧
        ∀ a, heap s' !! a
             = if decide (a ∈ omap owner_ref._p l) then None else heap s !! a.
Proof.
  revert s. induction l as [|e l IH]; intros s Hnd Hlive.
  - exists s. split; [done|]. split; [done|]. intros a.
    case_decide as Ha; [|done]. by apply elem_of_nil in Ha.
  - assert (omap owner_ref._p (e :: l)
            = from_option (λ a, [a]) [] (owner_ref._p e) ++ omap owner_ref._p l) as Hcons.
    { cbn. by destruct (owner_ref._p e). }
    rewrite Hcons in *. clear Hcons.
    cbn [dtor_all]. cxx_unfold.
    destruct (owner_ref._p e) as [a0|] eqn:He; cbn -[reverse] in *.
    + apply NoDup_cons in Hnd as [Hnotin Hnd].
      destruct (Hlive a0) as [v Ha0]; [by left|].
      rewrite (dtor_nonempty e b s a0 v He Ha0).
      destruct (IH (State (delete a0 (heap s)) (a0 :: deleted s)) Hnd) as
        (s' & Hrun & Hdel & Hheap).
      { intros a Ha. cbn. rewrite lookup_delete_ne; [apply Hlive; by right|].
        by intros <-. }
      exists s'. split; [done|]. split.
      * rewrite Hdel. cbn -[reverse]. by rewrite reverse_cons, <- app_assoc.
      * intros a. rewrite Hheap. cbn.
        destruct (decide (a = a0)) as [->|Hne].
        { rewrite lookup_delete_eq. rewrite (decide_True (P:=a0 ∈ a0 :: _));
            [by case_decide|by left]. }
        rewrite lookup_delete_ne by done.
        repeat case_decide; try done; set_solver.
    + rewrite (dtor_empty e b s He). by apply IH.
Qed.

Lemma omap_p_reverse (l : list owner_ref.t) :
  omap owner_ref._p (reverse l) = reverse (omap owner_ref._p l).
Proof.
  induction l as [|e l IH]; [done|].
  rewrite reverse_cons, omap_app, IH. cbn -[reverse].
  destruct (owner_ref._p e); cbn -[reverse];
    [by rewrite reverse_cons|by rewrite app_nil_r].
Qed.

Lemma owning_stack_dtor_spec st b s :
  let owned := omap owner_ref._p (owning_stack._v st) in
  NoDup owned →
  (∀ a, a ∈ owned → is_Some (heap s !! a)) →
  ∃ s', owning_stack_dtor st b s = Ok (tt, s') ∧
        deleted s' = owned ++ deleted s ∧
        (∀ a, a ∈ owned → heap s' !! a = None) ∧
        (∀ a, a ∉ owned → heap s' !! a = heap s !! a).
Proof.
  intros owned Hnd Hlive. unfold owning_stack_dtor.
  pose proof (omap_p_reverse (owning_stack._v st)) as Hrev. fold owned in Hrev.
  destruct (dtor_all_spec (reverse (owning_stack._v st)) b s) as (s' & Hrun & Hdel & Hheap).
  { rewrite Hrev. by rewrite reverse_Permutation. }
  { intros a. rewrite Hrev, elem_of_reverse. apply Hlive. }
  exists s'. split; [done|]. rewrite Hrev in Hdel, Hheap. split; [|split].
  - by rewrite Hdel, reverse_involutive.
  - intros a Ha. rewrite Hheap, decide_True; [done|by apply elem_of_reverse].
  - intros a Ha. rewrite Hheap, decide_False; [done|by rewrite elem_of_reverse].
Qed.

(** X7. The destructor of owning_stack releases everything the stack
    still owns.  For a stack whose non-empty handles hold distinct live
    addresses it returns in every build, deletes exactly those objects
    once each (the destructor log grows by them, the top one logged
    last), skips empty handles, and leaves every other object of the
    store alone. *)
Theorem owning_stack_dtor_releases_all st b s :
  let owned := omap owner_ref._p (owning_stack._v st) in
  NoDup owned →
  (∀ a, a ∈ owned → is_Some (heap s !! a)) →
  ∃ s', owning_stack_dtor st b s = Ok (tt, s') ∧
        deleted s' = owned ++ deleted s ∧
        (∀ a, a ∈ owned → heap s' !! a = None) ∧
        (∀ a, a ∉ owned → heap s' !! a = heap s !! a).
Proof. apply owning_stack_dtor_spec. Qed.
End destructor_properties.

Lemma owning_stack_dtor_releases_all_witness :
  let st := owning_stack.Build
              [owner_ref.Build (Some 2%positive); owner_ref.Build None;
               owner_ref.Build (Some 1%positive)] in
  let s : state Trace :=
    State {[1%positive := trace; 2%positive := trace; 3%positive := trace]} [] in
  ∃ s', owning_stack_dtor st Debug s = Ok (tt, s') ∧
        deleted s' = [2%positive; 1%positive] ∧
        (∀ a, a ∈ [2%positive; 1%positive] → heap s' !! a = None) ∧
        (∀ a, a ∉ [2%positive; 1%positive] → heap s' !! a = heap s !! a).
Proof.
  intros st s.
  assert (NoDup [2%positive; 1%positive]) as Hnd
    by (repeat constructor; set_solver).
  assert (∀ a, a ∈ [2%positive; 1%positive] → is_Some (heap s !! a)) as Hlive.
  { intros a Ha. repeat (apply elem_of_cons in Ha as [->|Ha]); [by eexists..|].
    by apply elem_of_nil in Ha. }
  exact (owning_stack_dtor_releases_all st Debug s Hnd Hlive).
Defined.

Section client_properties.
Context {T : Type} `{Payload T}.
Implicit Types (c : stmt T) (f : frame) (s : state T) (b : build)
  (r : owner_ref.t) (x y : string).

(** X8. Only the asserts protect an owned object from being overwritten.
    [x = std::move(y)] for a non-empty [x] (also for [y] being [x]
    itself) stops on an assert when asserts are on; without asserts it
    returns, nothing is deleted, and the object [x] held is leaked: it
    stays live but no variable and no stack element holds it any
    more. *)
Theorem move_assign_over_owner_leaks x y f s rx ry a :
  own_inv f s →
  vars f !! x = Some rx → vars f !! y = Some ry → owner_ref._p rx = Some a →
  exec (MoveAssign x y) f Debug s = AssertFail ∧
  ∃ f', exec (MoveAssign x y) f Release s = Ok (f', s) ∧
        is_Some (heap s !! a) ∧
        (∀ z r, vars f' !! z = Some r → owner_ref._p r ≠ Some a) ∧
        (∀ e, e ∈ owning_stack._v (stack f') → owner_ref._p e ≠ Some a) ∧
        ¬ no_leak f' s.
Proof.
  intros (L1 & L2 & U1 & U3) Hx Hy Hrx.
  split.
  { unfold exec, use. rewrite Hx, Hy. cxx_unfold.
    rewrite move_assign_nonempty_dst_debug; [done|congruence]. }
  eexists. split.
  { unfold exec, use. rewrite Hx, Hy. cxx_unfold.
    by rewrite move_assign_release. }
  cbn.
  assert (∀ z r, <[y:=owner_ref.Build None]>
                   (<[x:=owner_ref.Build (owner_ref._p ry)]> (vars f)) !! z = Some r →
                 owner_ref._p r ≠ Some a) as Hvars.
  { intros z r Hz. inv_lookup; cbn; [done| |].
    - intros Hry. assert (x = y) by eauto. done.
    - intros Hr. assert (z = x) by eauto. done. }
  assert (∀ e, e ∈ owning_stack._v (stack f) → owner_ref._p e ≠ Some a) as Hstack
    by eauto.
  split; [eauto|]. split; [done|]. split; [done|].
  intros Hnl. destruct (Hnl a) as [(z & r & Hz & Hr)|(e & He & Hr)]; [by eauto|..].
  - by eapply Hvars.
  - by eapply Hstack.
Qed.

Lemma exec_undefined c f b s :
  own_inv f s → exec c f b s = Undefined →
  c = Top ∧ owning_stack._v (stack f) = [].
Proof.
  intros (L1 & _) Hexec.
  destruct c as [x args|x y|x y|y|x| |x|x|x y|x y|x p];
    unfold exec, declare, use in Hexec; try done.
  - destruct (vars f !! x); [done|]. cxx_unfold.
    by rewrite make_owner_ref_eq in Hexec.
  - destruct (vars f !! x); [done|]. destruct (vars f !! y) as [ry|]; [|done].
    unfold owner_ref.init, owner_ref.move_ctor in Hexec. cxx_simpl.
    by destruct b, (owner_ref._p ry).
  - destruct (vars f !! x) as [rx|]; [|done]. destruct (vars f !! y) as [ry|]; [|done].
    unfold owner_ref.move_assign in Hexec. cxx_simpl.
    by destruct b, (owner_ref._p ry), (owner_ref._p rx).
  - destruct (vars f !! y) as [ry|]; [|done].
    unfold owning_stack.push, std_stack.push, owner_ref.init, owner_ref.move_ctor in Hexec.
    cxx_simpl. by destruct b, (owner_ref._p ry).
  - destruct (vars f !! x); [done|]. cxx_unfold. by rewrite pop_rejected in Hexec.
  - split; [done|]. unfold owning_stack.top, std_stack.top in Hexec. cxx_unfold.
    by destruct (owning_stack._v (stack f)).
  - destruct (vars f !! x) as [rx|] eqn:Hx; [|done]. cxx_unfold.
    destruct (owner_ref._p rx) as [a|] eqn:Hrx.
    + destruct (L1 x rx a Hx Hrx) as [v Ha].
      by rewrite (dtor_nonempty rx b s a v Hrx Ha) in Hexec.
    + by rewrite (dtor_empty rx b s Hrx) in Hexec.
  - destruct (vars f !! x); [done|]. by destruct (vars f !! y).
Qed.

Lemma run_undefined prog f b s :
  own_inv f s → run prog f b s = Undefined → Top ∈ prog.
Proof.
  revert f s. induction prog as [|c prog IH]; intros f s Hown; [done|].
  cbn [run]. cxx_unfold.
  destruct (exec c f b s) as [[f1 s1]| | |] eqn:Hexec; try done.
  - intros Hrun. apply elem_of_cons. right.
    eapply IH; [|done]. by eapply exec_own.
  - intros _. apply exec_undefined in Hexec as [-> _]; [|done].
    apply elem_of_cons. by left.
Qed.

(** X9. Creating, moving, pushing and destroying handles never has
    undefined behaviour.  A client program that runs into undefined
    behaviour, in whichever build, contains a [top()]: the one undefined
    step of the interface is [top()] on an empty stack, and in
    particular no scope exit is ever a double delete. *)
Theorem undefined_only_by_top (prog : list (stmt T)) b :
  run prog empty_frame b (empty_state (T:=T)) = Undefined →
  Top ∈ prog ∧
  ∀ c f s, own_inv f s → exec c f b s = Undefined →
           c = Top ∧ owning_stack._v (stack f) = [].
Proof.
  intros Hrun. split; [|intros c f s; apply exec_undefined].
  eapply run_undefined; [|done].
  split; [|split; [|split]]; cbn.
  - intros x r a Hx. by rewrite lookup_empty in Hx.
  - intros e a He. by apply elem_of_nil in He.
  - intros x y rx ry a Hx. by rewrite lookup_empty in Hx.
  - intros x rx e a Hx. by rewrite lookup_empty in Hx.
Qed.
End client_properties.

Lemma move_assign_over_owner_leaks_witness :
  let f := Frame {[ "x" := owner_ref.Build (Some 1%positive);
                    "y" := owner_ref.Build (Some 2%positive) ]} ∅
                 (owning_stack.Build []) in
  let s : state Trace := State {[1%positive := trace; 2%positive := trace]} [] in
  exec (MoveAssign "x" "y") f Debug s = AssertFail ∧
  ∃ f', exec (MoveAssign "x" "y") f Release s = Ok (f', s) ∧
        is_Some (heap s !! 1%positive) ∧
        (∀ z r, vars f' !! z = Some r → owner_ref._p r ≠ Some 1%positive) ∧
        (∀ e, e ∈ owning_stack._v (stack f') → owner_ref._p e ≠ Some 1%positive) ∧
        ¬ no_leak f' s.
Proof.
  intros f s.
  assert (own_inv f s) as Hown.
  { split; [|split; [|split]]; cbn.
    - intros x r a Hx Hr.
      apply lookup_insert_Some in Hx as [[<- <-]|[? Hx]].
      { injection Hr as <-. exists trace. reflexivity. }
      apply lookup_singleton_Some in Hx as [<- <-].
      injection Hr as <-. exists trace. reflexivity.
    - intros e a He. by apply elem_of_nil in He.
    - intros x y rx ry a Hx Hy Hrx Hry.
      apply lookup_insert_Some in Hx as [[<- <-]|[? Hx]];
        apply lookup_insert_Some in Hy as [[<- <-]|[? Hy]]; try done.
      + apply lookup_singleton_Some in Hy as [<- <-]. cbn in *. congruence.
      + apply lookup_singleton_Some in Hx as [<- <-]. cbn in *. congruence.
      + apply lookup_singleton_Some in Hx as [<- <-].
        by apply lookup_singleton_Some in Hy as [<- <-].
    - intros x rx e a _ _ He. by apply elem_of_nil in He. }
  exact (move_assign_over_owner_leaks (T:=Trace) "x" "y" f s
           (owner_ref.Build (Some 1%positive)) (owner_ref.Build (Some 2%positive))
           1%positive Hown eq_refl eq_refl eq_refl).
Defined.

Lemma undefined_only_by_top_witness :
  let prog : list (stmt Trace) := [Make "x" (tt : Args); Leave "x"; Top] in
  run prog empty_frame Debug (empty_state (T:=Trace)) = Undefined ∧ Top ∈ prog.
Proof.
  intros prog.
  assert (run prog empty_frame Debug (empty_state (T:=Trace)) = Undefined) as Hrun
    by (vm_compute; reflexivity).
  exact (conj Hrun (proj1 (undefined_only_by_top prog Debug Hrun))).
Defined.

(** * The whole program *)

Ltac io_unfold :=
  unfold mbind, IO_bind, mret, IO_ret, on_traces, on_stacks, print in *.

Lemma io_bind_ok {A B} (m : IO A) (k : A → IO B) b w a w' :
  m b w = Ok (a, w') → (m ≫= k) b w = k a b w'.
Proof. intros Hm. unfold mbind, IO_bind. by rewrite Hm. Qed.

Section program_lemmas.
Implicit Types (w : world) (b : build) (a ps : loc).

Lemma produce_io_eq b w :
  produce_io b w
  = Ok (owner_ref.Build (Some (fresh_loc (traces w))),
        World (State (<[fresh_loc (traces w):=trace]> (heap (traces w)))
                     (deleted (traces w)))
              (stacks w) (out w ++ [line_ctor])).
Proof. reflexivity. Qed.

Lemma Trace_call_live q (m : Trace_method) b w a :
  addr q = Some a → acc q = ReadWrite ∨ m = foo →
  heap (traces w) !! a = Some trace →
  Trace_call q m b w
  = Ok (tt, World (traces w) (stacks w)
                  (out w ++ [match m with foo => line_foo | bar => line_bar end])).
Proof.
  intros Hq Hacc Ha. unfold Trace_call, call, invoke. io_unfold.
  assert (State (<[a:=trace]> (heap (traces w))) (deleted (traces w)) = traces w) as Hid.
  { rewrite (insert_id _ _ _ Ha). by destruct (traces w). }
  destruct Hacc as [Hrw| ->].
  - rewrite Hrw. cbn. rewrite Hq, Ha. cbn. by rewrite Hid.
  - destruct (acc q); cbn; rewrite Hq, Ha; cbn; by rewrite Hid.
Qed.

Lemma look_io_live (p : const_ref.t) b w a :
  const_ref._p p = Some a → heap (traces w) !! a = Some trace →
  look_io p b w = Ok (tt, World (traces w) (stacks w) (out w ++ [line_foo])).
Proof.
  intros Hp Ha. unfold look_io.
  erewrite io_bind_ok; [|unfold const_ref.arrow; io_unfold; cbn; by destruct w].
  by apply (Trace_call_live _ foo b w a); [|right|].
Qed.

Lemma modify_io_live (p : shared_ref.t) b w a :
  shared_ref._p p = Some a → heap (traces w) !! a = Some trace →
  modify_io p b w
  = Ok (tt, World (traces w) (stacks w) (out w ++ [line_bar; line_foo])).
Proof.
  intros Hp Ha. unfold modify_io.
  erewrite io_bind_ok; [|unfold shared_ref.arrow; io_unfold; cbn; by destruct w].
  erewrite io_bind_ok; [|by apply (Trace_call_live _ bar b w a); [|left|]].
  rewrite (look_io_live _ b _ a); [|done|done]. cbn. by rewrite <- app_assoc.
Qed.

Lemma Trace_handle_dtor_live (r : owner_ref.t) b w a :
  owner_ref._p r = Some a → heap (traces w) !! a = Some trace →
  Trace_handle_dtor r b w
  = Ok (tt, World (State (delete a (heap (traces w))) (a :: deleted (traces w)))
                  (stacks w) (out w ++ [line_dtor])).
Proof.
  intros Hr Ha. unfold Trace_handle_dtor, operator_delete. rewrite Hr. io_unfold.
  cbn. by rewrite Ha.
Qed.

Lemma Trace_handle_dtor_empty (r : owner_ref.t) b w :
  owner_ref._p r = None → Trace_handle_dtor r b w = Ok (tt, w).
Proof. intros Hr. unfold Trace_handle_dtor. by rewrite Hr. Qed.

Lemma stack_push_live (s : shared_ref.t) (x : owner_ref.t) b w ps st a :
  shared_ref._p s = Some ps → heap (stacks w) !! ps = Some st →
  owner_ref._p x = Some a →
  stack_push s x b w
  = Ok (owner_ref.Build None,
        World (traces w)
              (State (<[ps:=owning_stack.Build
                              (owner_ref.Build (Some a) :: owning_stack._v st)]>
                        (heap (stacks w)))
                     (deleted (stacks w)))
              (out w)).
Proof.
  intros Hs Hps Hx. destruct w as [tr [hs ds] o]. cbn in Hps |- *.
  unfold stack_push.
  erewrite io_bind_ok; [|reflexivity].
  erewrite io_bind_ok;
    [|unfold on_stacks, load; cbn; rewrite Hs, Hps; reflexivity].
  erewrite io_bind_ok;
    [|unfold on_traces; cbn [traces]; rewrite push_nonempty by congruence;
      reflexivity].
  cbv beta iota.
  erewrite io_bind_ok;
    [|unfold on_stacks, store; cbn; rewrite Hs, Hps; reflexivity].
  by rewrite Hx.
Qed.

Lemma stack_top_live (s : shared_ref.t) b w ps e l :
  shared_ref._p s = Some ps →
  heap (stacks w) !! ps = Some (owning_stack.Build (e :: l)) →
  stack_top s b w = Ok (shared_ref.Build (owner_ref._p e), w).
Proof.
  intros Hs Hps. unfold stack_top, shared_ref.arrow, load. io_unfold.
  cbn. rewrite Hs, Hps. cbn. destruct w as [tr sk o]. cbn.
  by destruct tr, sk.
Qed.
End program_lemmas.

Lemma test_run (s : shared_ref.t) (b : build) (w : world) ps st :
  shared_ref._p s = Some ps → heap (stacks w) !! ps = Some st →
  let a1 := fresh_loc (traces w) in
  let s1 := State (<[a1:=trace]> (heap (traces w))) (deleted (traces w)) in
  let a2 := fresh_loc s1 in
  test s b w
  = Ok (tt, World (State (heap s1) (a2 :: deleted (traces w)))
                  (State (<[ps:=owning_stack.Build
                                  (owner_ref.Build (Some a1) :: owning_stack._v st)]>
                            (heap (stacks w)))
                         (deleted (stacks w)))
                  (out w ++ test_output)) ∧
  heap (traces w) !! a1 = None ∧ (a1 ∉ deleted (traces w)) ∧
  heap (traces w) !! a2 = None ∧ (a2 ∉ deleted (traces w)) ∧ a1 ≠ a2.
Proof.
  intros Hs Hps a1 s1 a2.
  pose proof (fresh_loc_not_live (traces w)) as Ha1.
  pose proof (fresh_loc_not_deleted (traces w)) as Hd1.
  pose proof (fresh_loc_not_live s1) as Ha2.
  pose proof (fresh_loc_not_deleted s1) as Hd2.
  fold a1 in Ha1, Hd1. fold a2 in Ha2, Hd2.
  assert (a1 ≠ a2) as Hne.
  { intros Heq. rewrite <- Heq in Ha2. cbn in Ha2. by rewrite lookup_insert_eq in Ha2. }
  split; [|repeat split; try done;
           cbn in Ha2; by rewrite lookup_insert_ne in Ha2].
  unfold test.
  rewrite (io_bind_ok _ _ _ _ _ _ (produce_io_eq b w)). fold a1. fold s1.
  erewrite io_bind_ok;
    [|by apply (modify_io_live _ b _ a1); [|apply lookup_insert_eq]].
  erewrite io_bind_ok; [|by apply (stack_push_live _ _ b _ ps st a1)].
  erewrite io_bind_ok; [|by eapply stack_top_live; [|apply lookup_insert_eq]].
  erewrite io_bind_ok;
    [|by apply (modify_io_live _ b _ a1); [|apply lookup_insert_eq]].
  erewrite io_bind_ok; [|by eapply stack_top_live; [|apply lookup_insert_eq]].
  erewrite io_bind_ok;
    [|by apply (look_io_live _ b _ a1); [|apply lookup_insert_eq]].
  erewrite io_bind_ok; [|apply produce_io_eq]. cbn [traces stacks out]. fold a2.
  erewrite (io_bind_ok (on_traces _));
    [|unfold on_traces; cbn [traces]; by destruct b].
  cbn [traces stacks out].
  erewrite io_bind_ok; [|by apply Trace_handle_dtor_empty].
  erewrite io_bind_ok;
    [|by apply (modify_io_live _ b _ a2); [|apply lookup_insert_eq]].
  rewrite (Trace_handle_dtor_live _ b _ a2); [|done|apply lookup_insert_eq].
  cbn [traces stacks out heap deleted].
  rewrite delete_insert_id by done.
  by rewrite <- !app_assoc.
Qed.

(** X11. One call of [test] on a view of a live stack returns in every
    build without tripping any assert.  It puts exactly one handle on
    the stack, to a Trace that did not exist before; it creates a second
    Trace and deletes it again before it returns; it leaves every other
    object and the rest of the stack as they were; and it prints the ten
    lines of [test_output]. *)
Theorem test_effect (s : shared_ref.t) (b : build) (w : world) ps st :
  shared_ref._p s = Some ps → heap (stacks w) !! ps = Some st →
  let a1 := fresh_loc (traces w) in
  let s1 := State (<[a1:=trace]> (heap (traces w))) (deleted (traces w)) in
  let a2 := fresh_loc s1 in
  test s b w
  = Ok (tt, World (State (heap s1) (a2 :: deleted (traces w)))
                  (State (<[ps:=owning_stack.Build
                                  (owner_ref.Build (Some a1) :: owning_stack._v st)]>
                            (heap (stacks w)))
                         (deleted (stacks w)))
                  (out w ++ test_output)) ∧
  heap (traces w) !! a1 = None ∧ (a1 ∉ deleted (traces w)) ∧
  heap (traces w) !! a2 = None ∧ (a2 ∉ deleted (traces w)) ∧ a1 ≠ a2.
Proof. apply test_run. Qed.

Lemma test_effect_witness :
  let s := shared_ref.Build (Some 1%positive) in
  let st := owning_stack.Build [owner_ref.Build (Some 5%positive)] in
  let w := World (State {[5%positive := trace]} [])
                 (State {[1%positive := st]} []) [] in
  let a1 := fresh_loc (traces w) in
  let s1 := State (<[a1:=trace]> (heap (traces w))) (deleted (traces w)) in
  let a2 := fresh_loc s1 in
  test s Debug w
  = Ok (tt, World (State (heap s1) (a2 :: deleted (traces w)))
                  (State (<[1%positive:=owning_stack.Build
                                  (owner_ref.Build (Some a1) :: owning_stack._v st)]>
                            (heap (stacks w)))
                         (deleted (stacks w)))
                  (out w ++ test_output)) ∧
  heap (traces w) !! a1 = None ∧ (a1 ∉ deleted (traces w)) ∧
  heap (traces w) !! a2 = None ∧ (a2 ∉ deleted (traces w)) ∧ a1 ≠ a2.
Proof.
  intros s st w.
  exact (test_effect s Debug w 1%positive st eq_refl eq_refl).
Defined.

Section loop_lemmas.
Implicit Types (w : world) (b : build) (a ps : loc).

Lemma objects_lookup (addrs : list loc) (h : gmap loc Trace) a :
  objects addrs h !! a = if decide (a ∈ addrs) then Some trace else h !! a.
Proof.
  induction addrs as [|a0 addrs IH].
  - cbn. case_decide as Ha; [|done]. by apply elem_of_nil in Ha.
  - change (objects (a0 :: addrs) h) with (<[a0:=trace]> (objects addrs h)).
    rewrite lookup_insert. destruct (decide (a0 = a)) as [->|Hne].
    + rewrite decide_True; [done|by left].
    + rewrite IH. repeat case_decide; try done; set_solver.
Qed.

Lemma objects_app (l1 l2 : list loc) (h : gmap loc Trace) :
  objects (l1 ++ l2) h = objects l1 (objects l2 h).
Proof. apply foldr_app. Qed.

(** Erasing the output of the element destructors gives [dtor_all]. *)
Lemma dtor_all_io_erase (l : list owner_ref.t) b w :
  dtor_all_io l b w
  = match dtor_all (T:=Trace) l b (traces w) with
    | Ok (_, s') =>
        Ok (tt, World s' (stacks w)
                      (out w ++ replicate (length (omap owner_ref._p l)) line_dtor))
    | AssertFail => AssertFail
    | Undefined => Undefined
    | IllFormed => IllFormed
    end.
Proof.
  revert w. induction l as [|e l IH]; intros w.
  - cbn. rewrite app_nil_r. by destruct w.
  - cbn [dtor_all_io dtor_all]. unfold mbind at 1 2, IO_bind, M_bind.
    destruct (owner_ref._p e) as [a|] eqn:He.
    + destruct (heap (traces w) !! a) as [[]|] eqn:Ha.
      * rewrite (Trace_handle_dtor_live e b w a He Ha).
        rewrite (dtor_nonempty e b (traces w) a trace He Ha).
        rewrite IH. cbn [traces stacks out]. cbn [omap list_omap]. rewrite He.
        destruct (dtor_all l b _) as [[[] s']| | |]; try done.
        cbn. by rewrite <- app_assoc.
      * unfold Trace_handle_dtor, owner_ref.dtor, operator_delete.
        rewrite He. io_unfold. cbn. by rewrite Ha.
    + rewrite (Trace_handle_dtor_empty e b w He), (dtor_empty e b (traces w) He).
      rewrite IH. cbn [omap list_omap]. by rewrite He.
Qed.

Lemma for_loop_test n : ∀ i b w (s : shared_ref.t) ps l,
  shared_ref._p s = Some ps →
  heap (stacks w) !! ps = Some (owning_stack.Build l) →
  ∃ addrs dls,
    for_loop n i (λ j, print (loop_header j);; test s) b w
    = Ok (tt, World (State (objects addrs (heap (traces w)))
                           (dls ++ deleted (traces w)))
                    (State (<[ps:=owning_stack.Build
                                    ((owner_ref.Build ∘ Some <$> addrs) ++ l)]>
                              (heap (stacks w)))
                           (deleted (stacks w)))
                    (out w ++ concat ((λ j, loop_header j :: test_output) <$> seq i n))) ∧
    length addrs = n ∧ length dls = n ∧ NoDup (addrs ++ dls) ∧
    ∀ a, a ∈ addrs ++ dls → heap (traces w) !! a = None ∧ a ∉ deleted (traces w).
Proof.
  induction n as [|n IH]; intros i b w s ps l Hs Hps.
  - exists [], []. split; [|split; [done|split; [done|split]]].
    2: { cbn. constructor. }
    2: { intros a Ha. by apply elem_of_nil in Ha. }
    cbn. rewrite app_nil_r, (insert_id _ _ _ Hps).
    destruct w as [[] [] ?]. done.
  - cbn [for_loop].
    pose (w0 := World (traces w) (stacks w) (out w ++ [loop_header i])).
    destruct (test_run s b w0 ps (owning_stack.Build l) Hs Hps)
      as (Htest & Ha1 & Hd1 & Ha2 & Hd2 & Hne).
    cbn [traces stacks out w0] in Htest, Ha1, Hd1, Ha2, Hd2, Hne.
    set (a1 := fresh_loc (traces w)) in *.
    set (a2 := fresh_loc (State (<[a1:=trace]> (heap (traces w))) (deleted (traces w)))) in *.
    erewrite io_bind_ok;
      [|erewrite io_bind_ok; [apply Htest|reflexivity]].
    match type of Htest with _ = Ok (_, ?w') => set (w1 := w') in * end.
    destruct (IH (S i) b w1 s ps (owner_ref.Build (Some a1) :: l) Hs)
      as (addrs & dls & Hrun & Hlen1 & Hlen2 & Hnd & Hfresh);
      [cbn; apply lookup_insert_eq|].
    subst w1.
    cbn [traces stacks out heap deleted] in Hrun, Hfresh.
    exists (addrs ++ [a1]), (dls ++ [a2]). split; [|split; [|split; [|split]]].
    + refine (eq_trans Hrun _). f_equal. f_equal. f_equal.
      * f_equal; [by rewrite objects_app|by rewrite <- app_assoc].
      * f_equal. rewrite insert_insert_eq. f_equal. f_equal.
        by rewrite fmap_app, <- app_assoc.
      * cbn. by rewrite <- !app_assoc.
    + rewrite length_app. cbn. lia.
    + rewrite length_app. cbn. lia.
    + assert (∀ a, a ∈ addrs ++ dls → a ≠ a1 ∧ a ≠ a2) as Hother.
      { intros a [Hlive Hdel]%Hfresh. split.
        - intros ->. by rewrite lookup_insert_eq in Hlive.
        - intros ->. apply Hdel. by left. }
      assert ((addrs ++ [a1]) ++ dls ++ [a2] ≡ₚ a1 :: a2 :: (addrs ++ dls)) as ->.
      { rewrite <- !app_assoc. cbn.
        rewrite <- Permutation_middle. f_equiv.
        rewrite (app_assoc addrs dls [a2]).
        by rewrite <- Permutation_cons_append. }
      constructor; [|constructor; [|done]].
      * intros [?|Hin]%elem_of_cons; [done|]. by apply Hother in Hin as [? _].
      * intros Hin. by apply Hother in Hin as [_ ?].
    + intros a Ha.
      assert (a = a1 ∨ a = a2 ∨ a ∈ addrs ++ dls) as [->|[->|Hin]]
        by set_solver; [done..|].
      apply Hfresh in Hin as [Hlive Hdel].
      apply lookup_insert_None in Hlive as [Hlive _].
      split; [done|]. intros Hin. apply Hdel. by right.
Qed.
End loop_lemmas.

Lemma omap_p_handles (addrs : list loc) :
  omap owner_ref._p (owner_ref.Build ∘ Some <$> addrs) = addrs.
Proof. induction addrs as [|a addrs IH]; [done|]. cbn. by rewrite IH. Qed.

Lemma main_upto_run (n : nat) (b : build) :
  ∃ w, main_upto n b empty_world = Ok (0%Z, w) ∧
       heap (traces w) = ∅ ∧ heap (stacks w) = ∅ ∧
       NoDup (deleted (traces w)) ∧ length (deleted (traces w)) = 2 * n ∧
       length (deleted (stacks w)) = 1 ∧
       out w = main_output n.
Proof.
  unfold main_upto.
  set (ps := fresh_loc (empty_state : state owning_stack.t)).
  set (s := owner_ref.Build (Some ps)).
  set (w0 := World empty_state
                   (State (<[ps:=owning_stack.Build []]> ∅) []) []).
  rewrite (io_bind_ok _ _ b empty_world s w0) by reflexivity.
  destruct (for_loop_test n 0 b w0 (shared_ref.from_owner s) ps [] eq_refl)
    as (addrs & dls & Hloop & Hlen1 & Hlen2 & Hnd & _);
    [apply lookup_insert_eq|].
  cbn [traces stacks out heap deleted w0 empty_state] in Hloop.
  rewrite !app_nil_r, insert_insert_eq in Hloop. cbn [app] in Hloop.
  erewrite io_bind_ok; [|exact Hloop].
  erewrite io_bind_ok; [|reflexivity]. cbn [traces stacks out].
  set (st := owning_stack.Build (owner_ref.Build ∘ Some <$> addrs)).
  set (tr := State (objects addrs ∅) dls).
  assert (NoDup addrs) as Hnd1 by by apply NoDup_app in Hnd as [? _].
  destruct (owning_stack_dtor_spec (T:=Trace) st b tr)
    as (tr' & Hdtor & Hdel & Hgone & Hkeep).
  { cbn. by rewrite omap_p_handles. }
  { cbn. rewrite omap_p_handles. intros a Ha.
    rewrite objects_lookup, decide_True by done. by eexists. }
  cbn [st owning_stack._v] in Hdel, Hgone, Hkeep.
  rewrite omap_p_handles in Hdel, Hgone, Hkeep.
  unfold owning_stack_dtor in Hdtor.
  eexists. split.
  { erewrite io_bind_ok; [reflexivity|].
    unfold stack_handle_dtor. cbn [s owner_ref._p is_null negb].
    erewrite io_bind_ok;
      [|unfold on_stacks, load; cbn; rewrite lookup_insert_eq; reflexivity].
    fold st. fold tr.
    erewrite io_bind_ok;
      [|unfold owning_stack_dtor_io; rewrite dtor_all_io_erase; cbn [traces];
        rewrite Hdtor; reflexivity].
    unfold on_stacks, operator_delete. cbn. rewrite lookup_insert_eq. reflexivity. }
  cbn [traces stacks out heap deleted].
  split; [|split; [|split; [|split; [|split]]]].
  - apply map_empty. intros a. destruct (decide (a ∈ addrs)) as [Ha|Ha].
    + by apply Hgone.
    + rewrite (Hkeep a Ha). cbn. by rewrite objects_lookup, decide_False.
  - rewrite delete_insert_id; [done|apply lookup_empty].
  - by rewrite Hdel.
  - rewrite Hdel, length_app. cbn. lia.
  - done.
  - unfold main_output.
    change (rev_append (owner_ref.Build ∘ Some <$> addrs) [])
      with (reverse (owner_ref.Build ∘ Some <$> addrs)).
    rewrite omap_p_reverse, length_reverse, omap_p_handles.
    rewrite Hlen1. by rewrite <- app_assoc.
Qed.

Lemma main_output_count (n : nat) :
  length (filter (λ t, t = line_ctor) (main_output n)) = 2 * n ∧
  length (filter (λ t, t = line_dtor) (main_output n)) = 2 * n.
Proof.
  assert (∀ i t, t = line_ctor ∨ t = line_dtor →
                 filter (λ u, u = t) (loop_header i :: test_output)
                 = filter (λ u, u = t) test_output) as Hhead.
  { intros i t Ht. rewrite filter_cons_False; [done|].
    destruct Ht as [-> | ->]; unfold loop_header, endl, line_ctor, line_dtor;
      cbn; intros [=]. }
  assert (∀ t, t = line_ctor ∨ t = line_dtor → ∀ i k,
            length (filter (λ u, u = t)
                      (concat ((λ j, loop_header j :: test_output) <$> seq i k)))
            = k * length (filter (λ u, u = t) test_output)) as Hblocks.
  { intros t Ht i k. revert i. induction k as [|k IH]; intros i; [done|].
    cbn [seq fmap list_fmap concat].
    change (loop_header i :: test_output ++ ?l)
      with ((loop_header i :: test_output) ++ l).
    rewrite filter_app, length_app, Hhead, IH by done. lia. }
  unfold main_output. rewrite !filter_app, !length_app.
  rewrite !Hblocks by auto.
  assert (filter (λ u, u = line_ctor) (replicate n line_dtor) = []) as ->.
  { induction n as [|k IH]; [done|]. cbn [replicate].
    rewrite filter_cons_False; [done|]. vm_compute. intros [=]. }
  assert (filter (λ u, u = line_dtor) (replicate n line_dtor) = replicate n line_dtor) as ->.
  { induction n as [|k IH]; [done|]. cbn [replicate].
    rewrite filter_cons_True by done. by rewrite IH. }
  rewrite length_replicate.
  assert (length (filter (λ u, u = line_ctor) test_output) = 2) as ->
    by (vm_compute; reflexivity).
  assert (length (filter (λ u, u = line_dtor) test_output) = 1) as ->
    by (vm_compute; reflexivity).
  assert (filter (λ u, u = line_ctor) [loop_ended] = []) as ->
    by (vm_compute; reflexivity).
  assert (filter (λ u, u = line_dtor) [loop_ended] = []) as ->
    by (vm_compute; reflexivity).
  cbn [length]. lia.
Qed.

(** X12. The program runs to the end in every build, for every bound [n]
    of its loop ([main] has [n = 2]): no assert fails and nothing is
    undefined.  It returns 0 and prints exactly [main_output n].  When it
    is over no object is left on either store: the [2 * n] Trace objects
    it created were deleted once each, and so was the one stack. *)
Theorem main_upto_runs (n : nat) (b : build) :
  ∃ w, main_upto n b empty_world = Ok (0%Z, w) ∧
       heap (traces w) = ∅ ∧ heap (stacks w) = ∅ ∧
       NoDup (deleted (traces w)) ∧ length (deleted (traces w)) = 2 * n ∧
       length (deleted (stacks w)) = 1 ∧
       out w = main_output n.
Proof. apply main_upto_run. Qed.

(** X13. Constructions and destructions of Trace balance in what the
    program prints: for every bound [n] and in every build the output
    has [2 * n] lines of [Trace()] and [2 * n] lines of [~Trace()]. *)
Theorem main_output_balanced (n : nat) (b : build) :
  ∃ w, main_upto n b empty_world = Ok (0%Z, w) ∧
       length (filter (λ t, t = line_ctor) (out w)) = 2 * n ∧
       length (filter (λ t, t = line_dtor) (out w)) = 2 * n.
Proof.
  destruct (main_upto_run n b) as (w & Hrun & _ & _ & _ & _ & _ & Hout).
  exists w. split; [done|]. rewrite Hout. apply main_output_count.
Qed.

(** [main] is the program with the bound 2. *)
Lemma main_runs (b : build) :
  ∃ w, main b empty_world = Ok (0%Z, w) ∧
       heap (traces w) = ∅ ∧ heap (stacks w) = ∅ ∧ out w = main_output 2.
Proof.
  destruct (main_upto_run 2 b) as (w & Hrun & Htr & Hst & _ & _ & _ & Hout).
  by exists w.
Qed.

(** X14. The loop of [main] stacks one handle per round.  Started on a
    view of a live stack, [n] rounds of the loop return in every build;
    they put [n] handles to new, distinct Trace objects on the stack
    above the old elements, the newest on top; they create and delete
    [n] further objects that were not there before; and they print a
    header and the lines of [test] per round. *)
Theorem loop_stacks_handles (n i : nat) (b : build) (w : world)
    (s : shared_ref.t) ps l :
  shared_ref._p s = Some ps →
  heap (stacks w) !! ps = Some (owning_stack.Build l) →
  ∃ addrs dls,
    for_loop n i (λ j, print (loop_header j);; test s) b w
    = Ok (tt, World (State (objects addrs (heap (traces w)))
                           (dls ++ deleted (traces w)))
                    (State (<[ps:=owning_stack.Build
                                    ((owner_ref.Build ∘ Some <$> addrs) ++ l)]>
                              (heap (stacks w)))
                           (deleted (stacks w)))
                    (out w ++ concat ((λ j, loop_header j :: test_output) <$> seq i n))) ∧
    length addrs = n ∧ length dls = n ∧ NoDup (addrs ++ dls) ∧
    ∀ a, a ∈ addrs ++ dls → heap (traces w) !! a = None ∧ a ∉ deleted (traces w).
Proof. apply for_loop_test. Qed.

Lemma loop_stacks_handles_witness :
  let s := shared_ref.Build (Some 1%positive) in
  let l := [owner_ref.Build (Some 5%positive)] in
  let w := World (State {[5%positive := trace]} [])
                 (State {[1%positive := owning_stack.Build l]} []) [] in
  ∃ addrs dls,
    for_loop 3 0 (λ j, print (loop_header j);; test s) Release w
    = Ok (tt, World (State (objects addrs (heap (traces w)))
                           (dls ++ deleted (traces w)))
                    (State (<[1%positive:=owning_stack.Build
                                    ((owner_ref.Build ∘ Some <$> addrs) ++ l)]>
                              (heap (stacks w)))
                           (deleted (stacks w)))
                    (out w ++ concat ((λ j, loop_header j :: test_output) <$> seq 0 3))) ∧
    length addrs = 3 ∧ length dls = 3 ∧ NoDup (addrs ++ dls) ∧
    ∀ a, a ∈ addrs ++ dls → heap (traces w) !! a = None ∧ a ∉ deleted (traces w).
Proof.
  intros s l w.
  exact (loop_stacks_handles 3 0 Release w s 1%positive l eq_refl eq_refl).
Defined.

(** * Ownership in client code *)

Section exclusive_ownership.
Context {T : Type} `{Payload T}.
Implicit Types (c : stmt T) (f : frame) (s : state T) (b : build).

Lemma exec_stack_distinct c f b s f' s' :
  own_inv f s → stack_distinct f →
  exec c f b s = Ok (f', s') → stack_distinct f'.
Proof.
  intros (_ & _ & _ & U3) Hnd Hexec. apply exec_inv in Hexec.
  unfold stack_distinct in *.
  destruct c as [x args|x y|x y|y|x| |x|x|x y|x y|x p]; try done.
  - by destruct Hexec as (_ & -> & _).
  - by destruct Hexec as (_ & ry & _ & _ & -> & _).
  - by destruct Hexec as (rx & ry & _ & _ & _ & -> & _).
  - destruct Hexec as (ry & Hy & _ & -> & _). cbn.
    destruct (owner_ref._p ry) as [a|] eqn:Hry; [|done].
    cbn. constructor; [|done].
    intros (e & He & Hea)%list_elem_of_omap. by eapply (U3 y ry e a).
  - by destruct Hexec as (-> & _).
  - by destruct Hexec as (rx & _ & -> & _).
Qed.

Lemma run_stack_distinct prog f b s f' s' :
  own_inv f s → stack_distinct f →
  run prog f b s = Ok (f', s') → stack_distinct f'.
Proof.
  revert f s. induction prog as [|c prog IH]; intros f s Hown Hnd.
  - by intros [= <- <-].
  - cbn [run]. cxx_unfold.
    destruct (exec c f b s) as [[f1 s1]| | |] eqn:Hexec; try done.
    apply IH; [by eapply exec_own|by eapply exec_stack_distinct].
Qed.

(** X10. Memory safety of client code.  Whatever a client program does,
    in whichever build, in every state it reaches from an empty scope
    and an empty store the object of every non-empty handle is alive and
    no two handles, be they variables or stack elements, hold the same
    object.  So destroying any variable, any stack element, or the whole
    stack returns: nothing is deleted that was deleted before.  With
    asserts, moreover, every live object is still held by a handle. *)
Theorem client_memory_safety (b : build) (prog : list (stmt T)) f s :
  run prog empty_frame b (empty_state (T:=T)) = Ok (f, s) →
  own_inv f s ∧ stack_distinct f ∧
  (∀ x r, vars f !! x = Some r → ∃ s', owner_ref.dtor r b s = Ok (tt, s')) ∧
  (∀ e, e ∈ owning_stack._v (stack f) →
        ∃ s', owner_ref.dtor e b s = Ok (tt, s')) ∧
  (∃ s', owning_stack_dtor (stack f) b s = Ok (tt, s')) ∧
  (b = Debug → no_leak f s).
Proof.
  intros Hrun.
  assert (own_inv empty_frame (empty_state (T:=T))) as Hown0.
  { split; [|split; [|split]]; cbn.
    - intros x r a Hx. by rewrite lookup_empty in Hx.
    - intros e a He. by apply elem_of_nil in He.
    - intros x y rx ry a Hx. by rewrite lookup_empty in Hx.
    - intros x rx e a Hx. by rewrite lookup_empty in Hx. }
  assert (stack_distinct empty_frame) as Hnd0 by constructor.
  pose proof (run_stack_distinct _ _ _ _ _ _ Hown0 Hnd0 Hrun) as Hnd.
  destruct (run_safe _ _ _ _ _ _ Hrun) as (Hown & _ & Hnl).
  specialize (Hown Hown0). destruct Hown as (L1 & L2 & U1 & U3).
  assert (∀ r a, owner_ref._p r = Some a → is_Some (heap s !! a) →
                 ∃ s', owner_ref.dtor r b s = Ok (tt, s')) as Hdtor.
  { intros r a Hr [v Ha]. erewrite dtor_nonempty by done. eauto. }
  split; [done|]. split; [done|]. split; [|split; [|split]].
  - intros x r Hx. destruct (owner_ref._p r) as [a|] eqn:Hr.
    + apply (Hdtor r a Hr). by eapply L1.
    + rewrite dtor_empty by done. eauto.
  - intros e He. destruct (owner_ref._p e) as [a|] eqn:Hr.
    + apply (Hdtor e a Hr). by eapply L2.
    + rewrite dtor_empty by done. eauto.
  - destruct (owning_stack_dtor_spec (stack f) b s Hnd) as (s' & Hs' & _).
    + intros a (e & He & Hea)%list_elem_of_omap. by eapply L2.
    + by exists s'.
  - intros ->. apply Hnl; [done|]. intros a [v Ha]. by cbn in Ha.
Qed.
End exclusive_ownership.

Lemma client_memory_safety_witness :
  let prog : list (stmt Trace) :=
    [Make "x" (tt : Args); MoveCtor "y" "x"; Push "y";
     Make "u" (tt : Args); Push "u";
     Make "z" (tt : Args); MoveAssign "x" "z"; Leave "z"] in
  ∃ f s,
    run prog empty_frame Debug empty_state = Ok (f, s) ∧
    own_inv f s ∧ stack_distinct f ∧
    (∀ x r, vars f !! x = Some r → ∃ s', owner_ref.dtor r Debug s = Ok (tt, s')) ∧
    (∀ e, e ∈ owning_stack._v (stack f) →
          ∃ s', owner_ref.dtor e Debug s = Ok (tt, s')) ∧
    (∃ s', owning_stack_dtor (stack f) Debug s = Ok (tt, s')) ∧
    (Debug = Debug → no_leak f s).
Proof.
  intros prog. eexists _, _.
  split; [vm_compute; reflexivity|].
  apply (client_memory_safety (T:=Trace) Debug prog). vm_compute; reflexivity.
Defined.
